(** * The step-reference loop of the PID simulator

    Both scripts of the repository ([pidgui_starter_kit.py] and
    [pidgui_starter.py]) contain the same fragment inside
    [simulate_pid_step]:

<<
    r = np.zeros_like(t)

    # Build the step reference profile
    crnt_key = 0
    counter = 0
    for val in t:
        for item in ref_profile:
            if val > item:
                crnt_key = item
        r[counter] = ref_profile[crnt_key]
        counter += 1
>>

    This file embeds that fragment as a program over an explicit store
    (the module-level dictionary [ref_profile] and the variables [t],
    [r], [crnt_key], [counter]) in a small state-and-exception monad,
    and proves the properties the specification states about it.

    Numbers.  The keys of [ref_profile] are Python integers: [Z].  The
    timestamps are the elements of a float64 array and the dictionary
    values are stored into a float64 array.  The fragment only compares
    a timestamp with a key and copies values, so timestamps and values
    are modelled as rationals [Q]: every finite float64 is a rational
    and the comparison of finite floats with integers is the comparison
    of the rationals.  NaN and the infinities are outside the model. *)

From Stdlib Require Import ZArith QArith Lia.
From stdpp Require Import base list strings.

Local Open Scope Z_scope.

(** ** Data *)

(** A Python [dict] iterates in insertion order, and the inner loop's
    result depends on that order, so the dictionary is the list of its
    items in insertion order.  A dictionary has no repeated key
    ([NoDup (keys p)]). *)
Definition profile : Type := list (Z * Q).

Definition keys (p : profile) : list Z := p.*1.

(** The module-level constant of both scripts. *)
Definition ref_profile : profile :=
  [ (0, 1%Q); (3, (1 # 2)%Q); (6, (3 # 2)%Q); (10, (-1 # 2)%Q);
    (15, 2%Q); (20, (-3)%Q); (25, 0%Q) ].

Inductive exn : Type := KeyError | IndexError.

Inductive result (A : Type) : Type :=
| Ok (a : A)
| Raise (e : exn).
Arguments Ok {A} a.
Arguments Raise {A} e.

(** [ref_profile[k]]: the value stored under [k], [KeyError] when [k] is
    not a key. *)
Fixpoint getitem (p : profile) (k : Z) : result Q :=
  match p with
  | [] => Raise KeyError
  | (k', v) :: p' => if Z.eqb k' k then Ok v else getitem p' k
  end.

(** [r[i] = v] on an array: [IndexError] when [i] is out of range. *)
Definition setitem (a : list Q) (i : nat) (v : Q) : result (list Q) :=
  if (i <? length a)%nat then Ok (<[i:=v]> a) else Raise IndexError.

(** [np.zeros_like(t)]. *)
Definition zeros_like (ts : list Q) : list Q := replicate (length ts) 0%Q.

(** [val > item], a float against an integer. *)
Definition gt (val : Q) (item : Z) : bool :=
  (Qnum (inject_Z item) * QDen val <? Qnum val * QDen (inject_Z item))%Z.

(** ** The store and the monad *)

Record store : Type := Store {
  g_ref_profile : profile;   (* global  ref_profile *)
  v_t : list Q;              (* local   t           *)
  v_r : list Q;              (* local   r           *)
  v_crnt_key : Z;            (* local   crnt_key    *)
  v_counter : nat            (* local   counter     *)
}.

Definition set_r (a : list Q) (s : store) : store :=
  Store (g_ref_profile s) (v_t s) a (v_crnt_key s) (v_counter s).
Definition set_crnt_key (k : Z) (s : store) : store :=
  Store (g_ref_profile s) (v_t s) (v_r s) k (v_counter s).
Definition set_counter (n : nat) (s : store) : store :=
  Store (g_ref_profile s) (v_t s) (v_r s) (v_crnt_key s) n.

Module Py.

Definition M (A : Type) : Type := store -> result (A * store).

Definition ret {A} (a : A) : M A := fun s => Ok (a, s).

Definition bind {A B} (c : M A) (k : A -> M B) : M B :=
  fun s => match c s with
           | Ok (a, s') => k a s'
           | Raise e => Raise e
           end.

Definition read {A} (f : store -> A) : M A := fun s => Ok (f s, s).

Definition assign (f : store -> store) : M unit := fun s => Ok (tt, f s).

Definition lift {A} (x : result A) : M A :=
  fun s => match x with Ok a => Ok (a, s) | Raise e => Raise e end.

(** [for x in xs: body].  The sequence is the one read when the loop
    starts; neither loop of the fragment writes the sequence it
    iterates over. *)
Fixpoint for_each {A} (xs : list A) (body : A -> M unit) : M unit :=
  match xs with
  | [] => ret tt
  | x :: xs' => bind (body x) (fun _ => for_each xs' body)
  end.

End Py.

Declare Scope py_scope.
Delimit Scope py_scope with py.
Notation "x <- c1 ;; c2" := (Py.bind c1 (fun x => c2))
  (at level 100, c1 at next level, right associativity) : py_scope.
Notation "c1 ;; c2" := (Py.bind c1 (fun _ => c2))
  (at level 100, right associativity) : py_scope.

(** ** The fragment *)

(** Lines 56-58:
<<
        for item in ref_profile:
            if val > item:
                crnt_key = item
>> *)
Definition scan_profile (val : Q) : Py.M unit :=
  (p <- Py.read g_ref_profile ;;
   Py.for_each (keys p) (fun item =>
     if gt val item then Py.assign (set_crnt_key item) else Py.ret tt))%py.

(** Lines 55-60, one iteration of [for val in t]. *)
Definition loop_body (val : Q) : Py.M unit :=
  (scan_profile val ;;
   p <- Py.read g_ref_profile ;;
   k <- Py.read v_crnt_key ;;
   x <- Py.lift (getitem p k) ;;
   c <- Py.read v_counter ;;
   a <- Py.read v_r ;;
   a' <- Py.lift (setitem a c x) ;;
   Py.assign (set_r a') ;;
   Py.assign (set_counter (S c)))%py.

(** Lines 50, 53 and 54: [r = np.zeros_like(t)], [crnt_key = 0],
    [counter = 0]. *)
Definition init_locals : Py.M unit :=
  (ts <- Py.read v_t ;;
   Py.assign (set_r (zeros_like ts)) ;;
   Py.assign (set_crnt_key 0) ;;
   Py.assign (set_counter 0%nat))%py.

(** Lines 50-60. *)
Definition build_step_reference : Py.M unit :=
  (init_locals ;;
   ts <- Py.read v_t ;;
   Py.for_each ts loop_body)%py.

(** The fragment as a function of the profile and the time vector: the
    array [r] it leaves behind.  The locals [r], [crnt_key] and
    [counter] are not bound before the fragment runs; the store holds
    placeholders for them, which the fragment overwrites before it
    reads them ([build_reference_any_locals] below). *)
Definition initial_store (p : profile) (ts : list Q) : store :=
  Store p ts [] 0 0%nat.

Definition build_reference (p : profile) (ts : list Q) : result (list Q) :=
  match build_step_reference (initial_store p ts) with
  | Ok (_, s) => Ok (v_r s)
  | Raise e => Raise e
  end.

(** ** What the two loops compute *)

(** The inner loop as a function of the key it starts from: the last
    key, in iteration order, that [val] exceeds; the starting key when
    there is none. *)
Fixpoint scan (ks : list Z) (val : Q) (ck : Z) : Z :=
  match ks with
  | [] => ck
  | item :: ks' => scan ks' val (if gt val item then item else ck)
  end.

(** The value of [crnt_key] after each iteration of the outer loop. *)
Fixpoint run_keys (ks : list Z) (ck : Z) (ts : list Q) : list Z :=
  match ts with
  | [] => []
  | val :: ts' => let ck' := scan ks val ck in ck' :: run_keys ks ck' ts'
  end.

(** The key the outer loop carries into the iteration after [ts]. *)
Definition carried (ks : list Z) (ck : Z) (ts : list Q) : Z :=
  foldl (fun k val => scan ks val k) ck ts.

Definition value_at (p : profile) (k : Z) : Q :=
  match getitem p k with Ok v => v | Raise _ => 0%Q end.

(** ** Vocabulary of the specification *)

(** The keys are stored in ascending order. *)
Fixpoint ascending (ks : list Z) : bool :=
  match ks with
  | [] => true
  | k :: ks' => forallb (fun k' => k <? k') ks' && ascending ks'
  end.

(** The time vector never decreases. *)
Fixpoint nondecreasing (ts : list Q) : bool :=
  match ts with
  | [] => true
  | t :: ts' => forallb (fun t' => Qle_bool t t') ts' && nondecreasing ts'
  end.

(** [k] is the largest key strictly less than [t]: "the last threshold
    crossed before [t]". *)
Definition largest_key_below (ks : list Z) (t : Q) (k : Z) : Prop :=
  k ∈ ks /\ (inject_Z k < t)%Q /\
  forall k', k' ∈ ks -> (inject_Z k' < t)%Q -> k' <= k.

(** [m] is the smallest key. *)
Definition smallest_key (ks : list Z) (m : Z) : Prop :=
  m ∈ ks /\ forall k, k ∈ ks -> m <= k.

(** No key is strictly less than [t]. *)
Definition no_key_below (ks : list Z) (t : Q) : Prop :=
  forall k, k ∈ ks -> (t <= inject_Z k)%Q.

(** The loop returns an array whose element [i] is the value stored
    under [k]. *)
Definition emits (p : profile) (ts : list Q) (i : nat) (k : Z) : Prop :=
  exists out v,
    build_reference p ts = Ok out /\ getitem p k = Ok v /\ out !! i = Some v.

Definition max_of (ks : list Z) : option Z :=
  match ks with
  | [] => None
  | k :: ks' => Some (foldr Z.max k ks')
  end.

Definition min_of (ks : list Z) : option Z :=
  match ks with
  | [] => None
  | k :: ks' => Some (foldr Z.min k ks')
  end.

(** "the maximum key [k] in [profile] such that [k < t]", computed
    without regard to the order of the keys. *)
Definition largest_below (ks : list Z) (t : Q) : option Z :=
  max_of (List.filter (gt t) ks).

Fixpoint collect (p : profile) (ks : list (option Z)) : result (list Q) :=
  match ks with
  | [] => Ok []
  | None :: _ => Raise KeyError
  | Some k :: ks' =>
      match getitem p k, collect p ks' with
      | Ok v, Ok out => Ok (v :: out)
      | Raise e, _ => Raise e
      | _, Raise e => Raise e
      end
  end.

(** The outer loop read without regard to the storage order: at each
    timestamp the largest key strictly below it, and the key of the
    previous timestamp when there is none. *)
Fixpoint largest_keys (ks : list Z) (ck : Z) (ts : list Q) : list Z :=
  match ts with
  | [] => []
  | t :: ts' =>
      let ck' := default ck (largest_below ks t) in
      ck' :: largest_keys ks ck' ts'
  end.

Definition build_by_largest_key (p : profile) (ts : list Q)
  : result (list Q) :=
  collect p (Some <$> largest_keys (keys p) 0 ts).

(** Modelled from the spec: the algorithm of section 4.1, which the
    repository does not contain as a function of its own.  "For each
    timestamp [t] in [times], determine the current key as the maximum
    key [k] in [profile] such that [k < t]; if no such key exists, fall
    back to the smallest key present.  Emit [profile[current_key]] at
    that position."  Each timestamp rescans the whole table. *)
Definition spec_current_key (ks : list Z) (t : Q) : option Z :=
  match largest_below ks t with
  | Some k => Some k
  | None => min_of ks
  end.

Definition spec_build_reference (p : profile) (ts : list Q)
  : result (list Q) :=
  collect p (map (spec_current_key (keys p)) ts).

(** Modelled from the spec: the "incremental pointer that advances
    monotonically as [times] increases" of section 4.1, a two-pointer
    merge over a profile stored in ascending key order, absent from the
    repository.  The cursor [cur] starts on the first (smallest) entry;
    [rest] holds the entries after it.  For each timestamp the cursor
    moves forward over the entries whose key the timestamp exceeds and
    never moves back. *)
Fixpoint advance (cur : Z * Q) (rest : profile) (t : Q)
  : (Z * Q) * profile :=
  match rest with
  | [] => (cur, [])
  | (k, v) :: rest' =>
      if gt t k then advance (k, v) rest' t else (cur, rest)
  end.

Fixpoint two_pointer_from (cur : Z * Q) (rest : profile) (ts : list Q)
  : list Q :=
  match ts with
  | [] => []
  | t :: ts' =>
      let '(cur', rest') := advance cur rest t in
      cur'.2 :: two_pointer_from cur' rest' ts'
  end.

Definition two_pointer_build_reference (p : profile) (ts : list Q)
  : result (list Q) :=
  match p with
  | [] => match ts with [] => Ok [] | _ :: _ => Raise KeyError end
  | e :: rest => Ok (two_pointer_from e rest ts)
  end.

(** ** The Generate button *)

(** [on_generate], the callback of the button in both scripts:

<<
    def on_generate():
        try:
            Kp = float(kp_entry.get())
            Ki = float(ki_entry.get())
            Kd = float(kd_entry.get())
            if input_type.get().lower() == "step":
                simulate_pid_step(Kp, Ki, Kd)
            elif input_type.get().lower() == "ramp":
                simulate_pid_ramp(Kp, Ki, Kd)
            elif input_type.get().lower() == "sinusoidal":
                simulate_pid_sin(Kp, Ki, Kd)
        except ValueError:
            tk.messagebox.showerror("Input Error", ...)
>>

    In [pidgui_starter.py] the two [elif] branches are commented out.

    The callback is modelled as a function of what it reads (the text
    of the three entries and of the selection variable) that returns
    what it does: the calls it makes, in order, and the exception that
    leaves it, if any.  The builtin [float] and the three simulation
    procedures, which run the control library and the plot, are
    parameters. *)

(** [str.lower()].  A string is the sequence of its bytes; the bytes of
    the letters [A-Z] are mapped to [a-z] and every other byte is left
    alone.  Python also lowers letters outside ASCII, but only into
    characters outside ASCII, except for U+0130 and U+212A, which give
    [i] followed by U+0307 and [k]: no string that this [lower] leaves
    different from ["step"], ["ramp"] or ["sinusoidal"] is equal to one
    of them after Python's. *)
Definition lower_ascii (c : Ascii.ascii) : Ascii.ascii :=
  let n := Ascii.N_of_ascii c in
  if ((65 <=? n) && (n <=? 90))%N then Ascii.ascii_of_N (n + 32) else c.

Fixpoint lower (s : string) : string :=
  match s with
  | EmptyString => EmptyString
  | String c s' => String (lower_ascii c) (lower s')
  end.

Inductive simulation : Type := SimStep | SimRamp | SimSin.

(** The exceptions the callback tells apart: [ValueError], which its
    handler catches, and any other. *)
Inductive gui_exn : Type := ValueError | OtherException.

Section Gui.

(** Python floats, [float(s)] ([None] when it raises [ValueError]), and
    the simulation procedures ([None] when the call returns). *)
Variable F : Type.
Variable float : string -> option F.
Variable simulate : simulation -> F -> F -> F -> option gui_exn.

Inductive event : Type :=
| Call (f : simulation) (Kp Ki Kd : F)
| ShowError.

Definition outcome : Type := list event * option gui_exn.

Definition call (f : simulation) (Kp Ki Kd : F) : outcome :=
  ([Call f Kp Ki Kd], simulate f Kp Ki Kd).

(** The three conversions at the head of the [try] block. *)
Definition with_gains (kp ki kd : string) (k : F -> F -> F -> outcome)
  : outcome :=
  match float kp with
  | None => ([], Some ValueError)
  | Some Kp =>
      match float ki with
      | None => ([], Some ValueError)
      | Some Ki =>
          match float kd with
          | None => ([], Some ValueError)
          | Some Kd => k Kp Ki Kd
          end
      end
  end.

(** [except ValueError: tk.messagebox.showerror(...)]. *)
Definition except_ValueError (o : outcome) : outcome :=
  match o with
  | (tr, Some ValueError) => (tr ++ [ShowError], None)
  | _ => o
  end.

(** [pidgui_starter_kit.py], lines 218-230. *)
Definition on_generate (kp ki kd sel : string) : outcome :=
  except_ValueError
    (with_gains kp ki kd (fun Kp Ki Kd =>
       if String.eqb (lower sel) "step" then call SimStep Kp Ki Kd
       else if String.eqb (lower sel) "ramp" then call SimRamp Kp Ki Kd
       else if String.eqb (lower sel) "sinusoidal" then call SimSin Kp Ki Kd
       else ([], None))).

(** [pidgui_starter.py], lines 266-278. *)
Definition starter_on_generate (kp ki kd sel : string) : outcome :=
  except_ValueError
    (with_gains kp ki kd (fun Kp Ki Kd =>
       if String.eqb (lower sel) "step" then call SimStep Kp Ki Kd
       else ([], None))).

(** The simulation a selection stands for. *)
Definition selects (sel : string) (f : simulation) : Prop :=
  match f with
  | SimStep => lower sel = "step"
  | SimRamp => lower sel = "ramp"
  | SimSin => lower sel = "sinusoidal"
  end.

End Gui.

Arguments Call {F} f Kp Ki Kd.
Arguments ShowError {F}.

(** ** Concrete inputs *)

(** The first three entries of [ref_profile], and the timestamps
    [0, 1, 2.9, 3, 3.1, 5.9, 6, 100]. *)
Definition profile3 : profile :=
  [ (0, 1%Q); (3, (1 # 2)%Q); (6, (3 # 2)%Q) ].

Definition times8 : list Q :=
  [ 0%Q; 1%Q; (29 # 10)%Q; 3%Q; (31 # 10)%Q; (59 # 10)%Q; 6%Q; 100%Q ].

(** The same timestamps as float64 values: 2.9, 3.1 and 5.9 are not
    binary fractions, and the array holds the nearest doubles. *)
Definition times8_float64 : list Q :=
  [ 0%Q; 1%Q; (6530219459687219 # 2251799813685248)%Q; 3%Q;
    (6980579422424269 # 2251799813685248)%Q;
    (3321404725185741 # 562949953421312)%Q; 6%Q; 100%Q ].

(** The same dictionary as [profile3], its items inserted in another
    order. *)
Definition profile3_shuffled : profile :=
  [ (3, (1 # 2)%Q); (0, 1%Q); (6, (3 # 2)%Q) ].

(** A time vector that goes back to zero. *)
Definition times_back : list Q := [ 5%Q; 0%Q ].

(** The staircase that the table [ref_profile] describes, as a function
    of time: 1.0 up to and including [t = 3], then 0.5 up to and
    including 6, and so on; 0 after 25. *)
Definition staircase (t : Q) : Q :=
  if gt t 25 then 0%Q
  else if gt t 20 then (-3)%Q
  else if gt t 15 then 2%Q
  else if gt t 10 then (-1 # 2)%Q
  else if gt t 6 then (3 # 2)%Q
  else if gt t 3 then (1 # 2)%Q
  else 1%Q.

(** [float] on the texts the three entries are filled with when the
    window opens, ["5.0"], ["2.0"] and ["0.5"], and on nothing else; a
    simulation that returns.  They stand for the parameters of
    [on_generate] in the examples. *)
Definition entry_float (s : string) : option Q :=
  if String.eqb s "5.0" then Some 5%Q
  else if String.eqb s "2.0" then Some 2%Q
  else if String.eqb s "0.5" then Some (1 # 2)%Q
  else None.

Definition simulate_returns (f : simulation) (Kp Ki Kd : Q)
  : option gui_exn := None.

(** * Proofs *)

(** [NoDup] of a list of literal keys. *)
Ltac solve_NoDup :=
  cbv [keys fmap list_fmap fst];
  repeat (apply NoDup_cons; split;
          [ rewrite ?not_elem_of_cons; repeat split;
            (discriminate || apply not_elem_of_nil) | ]);
  apply NoDup_nil_2.

(** Membership in a list of literal keys, by cases. *)
Ltac elem_cases H :=
  repeat (apply elem_of_cons in H as [-> | H]); [.. | inversion H]; simpl.

(** ** Comparison *)

Lemma gt_lt (val : Q) (item : Z) :
  gt val item = true <-> (inject_Z item < val)%Q.
Proof. unfold gt, Qlt. apply Z.ltb_lt. Qed.

Lemma gt_le (val : Q) (item : Z) :
  gt val item = false <-> (val <= inject_Z item)%Q.
Proof. unfold gt, Qle. apply Z.ltb_ge. Qed.

Lemma gt_Qeq (t1 t2 : Q) (k : Z) : (t1 == t2)%Q -> gt t1 k = gt t2 k.
Proof.
  intros E. destruct (gt t2 k) eqn:G.
  - apply gt_lt. apply gt_lt in G. now rewrite E.
  - apply gt_le. apply gt_le in G. now rewrite E.
Qed.

Lemma gt_mono (t t' : Q) (k : Z) :
  (t <= t')%Q -> gt t k = true -> gt t' k = true.
Proof.
  rewrite !gt_lt. intros L H. eapply Qlt_le_trans; eassumption.
Qed.

Lemma gt_key_mono (t : Q) (k k' : Z) :
  k <= k' -> gt t k' = true -> gt t k = true.
Proof.
  rewrite !gt_lt. intros L H.
  eapply Qle_lt_trans; [| exact H]. rewrite <- Zle_Qle. exact L.
Qed.

Lemma gt_inject (k k' : Z) : gt (inject_Z k) k' = (k' <? k).
Proof. unfold gt. simpl. now rewrite !Z.mul_1_r. Qed.

(** ** The dictionary *)

Lemma getitem_elem (p : profile) (k : Z) (v : Q) :
  getitem p k = Ok v -> (k, v) ∈ p.
Proof.
  induction p as [| [k' v'] p IH]; simpl; [discriminate |].
  destruct (Z.eqb_spec k' k) as [-> | _].
  - intros [= ->]. left.
  - intros H. right. auto.
Qed.

Lemma getitem_raise (p : profile) (k : Z) (e : exn) :
  getitem p k = Raise e -> e = KeyError /\ k ∉ keys p.
Proof.
  induction p as [| [k' v'] p IH]; simpl.
  - intros [= <-]. split; [reflexivity |]. apply not_elem_of_nil.
  - destruct (Z.eqb_spec k' k) as [-> | N]; [discriminate |].
    intros H. destruct (IH H) as [-> Hk]. split; [reflexivity |].
    rewrite not_elem_of_cons. split; [congruence | exact Hk].
Qed.

Lemma getitem_key (p : profile) (k : Z) :
  k ∈ keys p -> getitem p k = Ok (value_at p k).
Proof.
  intros Hk. unfold value_at. destruct (getitem p k) as [v | e] eqn:G.
  - reflexivity.
  - apply getitem_raise in G. tauto.
Qed.

Lemma getitem_nodup (p : profile) (k : Z) (v : Q) :
  NoDup (keys p) -> (k, v) ∈ p -> getitem p k = Ok v.
Proof.
  induction p as [| [k' v'] p IH]; simpl.
  - intros _ H. inversion H.
  - intros ND H. apply NoDup_cons in ND as [Hk' ND].
    apply elem_of_cons in H as [[= <- <-] | H].
    + now rewrite Z.eqb_refl.
    + destruct (Z.eqb_spec k' k) as [-> | _]; [| auto].
      exfalso. apply Hk'. unfold keys. apply list_elem_of_fmap.
      exists (k, v). split; [reflexivity | exact H].
Qed.

Lemma getitem_perm (p q : profile) (k : Z) :
  NoDup (keys p) -> p ≡ₚ q -> getitem q k = getitem p k.
Proof.
  intros ND P.
  assert (NDq : NoDup (keys q)).
  { unfold keys in *. now rewrite <- P. }
  destruct (getitem p k) as [v | e] eqn:G.
  - apply getitem_nodup; [exact NDq |]. rewrite <- P. now apply getitem_elem.
  - apply getitem_raise in G as [-> Hk].
    destruct (getitem q k) as [v | e] eqn:G'.
    + exfalso. apply Hk. apply getitem_elem in G'. unfold keys.
      apply list_elem_of_fmap. exists (k, v). split; [reflexivity |].
      now rewrite P.
    + apply getitem_raise in G' as [-> _]. reflexivity.
Qed.

(** ** The inner loop *)

Lemma scan_app (ks1 ks2 : list Z) (val : Q) (ck : Z) :
  scan (ks1 ++ ks2) val ck = scan ks2 val (scan ks1 val ck).
Proof. revert ck. induction ks1 as [| k ks1 IH]; simpl; auto. Qed.

(** No key below [val]: the key is left as it was. *)
Lemma scan_none (ks : list Z) (val : Q) (ck : Z) :
  (forall k, k ∈ ks -> gt val k = false) -> scan ks val ck = ck.
Proof.
  revert ck. induction ks as [| k ks IH]; simpl; intros ck H; [reflexivity |].
  rewrite (H k) by left. apply IH. intros k' Hk'. apply H. now right.
Qed.

(** Either no key is below [val], or the loop ends on such a key,
    whatever key it started from. *)
Lemma scan_cases (ks : list Z) (val : Q) :
  (forall k, k ∈ ks -> gt val k = false) \/
  (exists k0, k0 ∈ ks /\ gt val k0 = true /\ forall ck, scan ks val ck = k0).
Proof.
  induction ks as [| a ks [Hno | (k0 & Hk0 & G0 & E0)]]; simpl.
  - left. intros k Hk. inversion Hk.
  - destruct (gt val a) eqn:Ga.
    + right. exists a. repeat split; [left | exact Ga |].
      intros ck. now apply scan_none.
    + left. intros k Hk. apply elem_of_cons in Hk as [-> | Hk]; auto.
  - right. exists k0. repeat split; [now right | exact G0 |].
    intros ck. apply E0.
Qed.

Lemma scan_some (ks : list Z) (val : Q) (ck ck' : Z) (k : Z) :
  k ∈ ks -> gt val k = true ->
  scan ks val ck ∈ ks /\ gt val (scan ks val ck) = true /\
  scan ks val ck = scan ks val ck'.
Proof.
  intros Hk G. destruct (scan_cases ks val) as [Hno | (k0 & Hk0 & G0 & E0)].
  - rewrite (Hno k Hk) in G. discriminate.
  - rewrite !E0. auto.
Qed.

Lemma scan_in (ks : list Z) (val : Q) (ck : Z) :
  scan ks val ck = ck \/ scan ks val ck ∈ ks.
Proof.
  revert ck. induction ks as [| a ks IH]; simpl; intros ck; [now left |].
  destruct (IH (if gt val a then a else ck)) as [E | H].
  - rewrite E. destruct (gt val a); [right; left | now left].
  - right. now right.
Qed.

Lemma scan_Qeq (ks : list Z) (t1 t2 : Q) (ck : Z) :
  (t1 == t2)%Q -> scan ks t1 ck = scan ks t2 ck.
Proof.
  intros E. revert ck. induction ks as [| a ks IH]; simpl; intros ck.
  - reflexivity.
  - rewrite (gt_Qeq t1 t2 a E). apply IH.
Qed.

(** ** Ascending key lists *)

Lemma ascending_cons (k : Z) (ks : list Z) :
  ascending (k :: ks) = true <->
  (forall k', k' ∈ ks -> k < k') /\ ascending ks = true.
Proof.
  simpl. rewrite andb_true_iff, forallb_forall.
  split; intros [H1 H2]; (split; [| exact H2]); intros k' Hk'.
  - apply Z.ltb_lt, H1. now apply list_elem_of_In.
  - apply Z.ltb_lt, H1. now apply list_elem_of_In.
Qed.

Lemma ascending_NoDup (ks : list Z) : ascending ks = true -> NoDup ks.
Proof.
  induction ks as [| k ks IH]; [constructor |].
  rewrite ascending_cons. intros [H1 H2]. constructor; [| auto].
  intros Hk. specialize (H1 k Hk). lia.
Qed.

Lemma ascending_lookup (ks : list Z) (i j : nat) (a b : Z) :
  ascending ks = true -> ks !! i = Some a -> ks !! j = Some b ->
  (i < j)%nat -> a < b.
Proof.
  revert i j. induction ks as [| k ks IH]; intros i j A Hi Hj L.
  - discriminate.
  - apply ascending_cons in A as [A1 A2].
    destruct j as [| j]; [lia |]. simpl in Hj.
    destruct i as [| i]; simpl in Hi.
    + injection Hi as ->. apply A1. eapply list_elem_of_lookup_2. eassumption.
    + eapply (IH i j); eauto; lia.
Qed.

(** In an ascending list, once a key is not below [t] none of the
    later keys is. *)
Lemma ascending_tail_not_below (k : Z) (ks : list Z) (t : Q) :
  ascending (k :: ks) = true -> gt t k = false ->
  forall k', k' ∈ ks -> gt t k' = false.
Proof.
  rewrite ascending_cons. intros [A _] G k' Hk'.
  destruct (gt t k') eqn:G'; [| reflexivity].
  rewrite (gt_key_mono t k k') in G; [discriminate | | exact G'].
  specialize (A k' Hk'). lia.
Qed.

(** ** Largest and smallest key *)

Lemma foldr_max_spec (k : Z) (l : list Z) :
  (foldr Z.max k l = k \/ foldr Z.max k l ∈ l) /\
  k <= foldr Z.max k l /\ forall x, x ∈ l -> x <= foldr Z.max k l.
Proof.
  induction l as [| a l (IH1 & IH2 & IH3)]; simpl.
  - repeat split; [now left | lia |]. intros x Hx. inversion Hx.
  - repeat split.
    + destruct (Z.max_spec a (foldr Z.max k l)) as [[_ ->] | [_ ->]].
      * destruct IH1 as [-> | H]; [now left | right; now right].
      * right. left.
    + lia.
    + intros x Hx. apply elem_of_cons in Hx as [-> | Hx]; [lia |].
      specialize (IH3 x Hx). lia.
Qed.

Lemma max_of_Some (l : list Z) (m : Z) :
  max_of l = Some m <-> m ∈ l /\ forall x, x ∈ l -> x <= m.
Proof.
  destruct l as [| k l]; simpl.
  - split; [discriminate | intros [H _]; inversion H].
  - destruct (foldr_max_spec k l) as (H1 & H2 & H3). split.
    + intros [= <-]. split.
      * destruct H1 as [-> | H]; [left | now right].
      * intros x Hx. apply elem_of_cons in Hx as [-> | Hx]; auto.
    + intros [Hm Hall]. f_equal. apply Z.le_antisymm.
      * apply Hall. destruct H1 as [-> | H]; [left | now right].
      * apply elem_of_cons in Hm as [-> | Hm]; auto.
Qed.

Lemma max_of_None (l : list Z) : max_of l = None <-> l = [].
Proof. destruct l; simpl; split; congruence. Qed.

Lemma elem_of_filter_gt (ks : list Z) (t : Q) (k : Z) :
  k ∈ List.filter (gt t) ks <-> k ∈ ks /\ gt t k = true.
Proof. rewrite !list_elem_of_In. apply filter_In. Qed.

Lemma largest_below_Some (ks : list Z) (t : Q) (k : Z) :
  largest_below ks t = Some k <-> largest_key_below ks t k.
Proof.
  unfold largest_below, largest_key_below. rewrite max_of_Some.
  rewrite elem_of_filter_gt, gt_lt. split.
  - intros [[H1 H2] H3]. repeat split; auto.
    intros k' Hk' L. apply H3. apply elem_of_filter_gt.
    split; [exact Hk' | now apply gt_lt].
  - intros (H1 & H2 & H3). repeat split; auto.
    intros x Hx. apply elem_of_filter_gt in Hx as [Hx G].
    apply H3; [exact Hx | now apply gt_lt].
Qed.

Lemma largest_below_None (ks : list Z) (t : Q) :
  largest_below ks t = None <-> no_key_below ks t.
Proof.
  unfold largest_below, no_key_below. rewrite max_of_None. split.
  - intros E k Hk. apply gt_le. destruct (gt t k) eqn:G; [| reflexivity].
    assert (k ∈ List.filter (gt t) ks) as H by now apply elem_of_filter_gt.
    rewrite E in H. inversion H.
  - intros H.
    destruct (List.filter (gt t) ks) as [| k l] eqn:E; [reflexivity |].
    assert (k ∈ List.filter (gt t) ks) as Hk by (rewrite E; left).
    apply elem_of_filter_gt in Hk as [Hk G].
    specialize (H k Hk). apply gt_le in H. congruence.
Qed.

Lemma largest_below_perm (ks ks' : list Z) (t : Q) :
  ks ≡ₚ ks' -> largest_below ks t = largest_below ks' t.
Proof.
  intros P. destruct (largest_below ks t) as [k |] eqn:E; symmetry.
  - apply largest_below_Some. apply largest_below_Some in E.
    destruct E as (H1 & H2 & H3). repeat split; [now rewrite <- P | exact H2 |].
    intros k' Hk'. apply H3. now rewrite P.
  - apply largest_below_None. apply largest_below_None in E.
    intros k Hk. apply E. now rewrite P.
Qed.

Lemma scan_ascending_ge (ks : list Z) (val : Q) (ck k : Z) :
  ascending ks = true -> k ∈ ks -> gt val k = true -> k <= scan ks val ck.
Proof.
  revert ck. induction ks as [| a ks IH]; simpl scan; intros ck A Hk G.
  - inversion Hk.
  - apply ascending_cons in A as [A1 A2].
    apply elem_of_cons in Hk as [-> | Hk]; [| now apply IH].
    rewrite G. destruct (scan_in ks val a) as [-> | H]; [lia |].
    specialize (A1 _ H). lia.
Qed.

(** On an ascending list the inner loop finds the largest key below
    [val]. *)
Lemma scan_ascending (ks : list Z) (val : Q) (ck : Z) :
  ascending ks = true -> scan ks val ck = default ck (largest_below ks val).
Proof.
  intros A. destruct (largest_below ks val) as [k |] eqn:E; simpl.
  - apply largest_below_Some in E as (Hk & L & Hmax).
    pose proof L as G. apply gt_lt in G.
    destruct (scan_some ks val ck ck k Hk G) as (H1 & H2 & _).
    apply Z.le_antisymm.
    + apply Hmax; [exact H1 | now apply gt_lt].
    + now apply scan_ascending_ge.
  - apply largest_below_None in E. apply scan_none.
    intros k Hk. apply gt_le. now apply E.
Qed.

(** ** Running the fragment *)

Lemma for_each_scan (ks : list Z) (val : Q) (s : store) :
  Py.for_each ks (fun item =>
    if gt val item then Py.assign (set_crnt_key item) else Py.ret tt) s
  = Ok (tt, set_crnt_key (scan ks val (v_crnt_key s)) s).
Proof.
  revert s. induction ks as [| a ks IH]; intros [p t r ck c]; simpl.
  - reflexivity.
  - unfold Py.bind. destruct (gt val a); simpl; rewrite IH; reflexivity.
Qed.

Lemma scan_profile_run (val : Q) (s : store) :
  scan_profile val s
  = Ok (tt, set_crnt_key (scan (keys (g_ref_profile s)) val (v_crnt_key s)) s).
Proof. unfold scan_profile, Py.bind, Py.read. apply for_each_scan. Qed.

(** One iteration, in terms of the two operations that can raise. *)
Lemma loop_body_run (val : Q) (p : profile) (t r : list Q) (ck : Z) (c : nat) :
  loop_body val (Store p t r ck c) =
  match getitem p (scan (keys p) val ck) with
  | Ok x =>
      match setitem r c x with
      | Ok r' => Ok (tt, Store p t r' (scan (keys p) val ck) (S c))
      | Raise e => Raise e
      end
  | Raise e => Raise e
  end.
Proof.
  unfold loop_body, Py.bind at 1. rewrite scan_profile_run.
  unfold Py.bind, Py.read, Py.lift, Py.assign, set_crnt_key. simpl.
  destruct (getitem p (scan (keys p) val ck)) as [x | e]; [| reflexivity].
  cbn [v_r v_counter v_crnt_key g_ref_profile v_t].
  destruct (setitem r c x) as [r' | e]; reflexivity.
Qed.

(** An iteration that returns leaves [ref_profile] and [t] as they
    were and keeps the length of [r]. *)
Lemma loop_body_frame (val : Q) (s s' : store) (u : unit) :
  loop_body val s = Ok (u, s') ->
  g_ref_profile s' = g_ref_profile s /\ v_t s' = v_t s /\
  length (v_r s') = length (v_r s).
Proof.
  destruct s as [p t r ck c]. rewrite loop_body_run.
  destruct (getitem p (scan (keys p) val ck)) as [x | e]; [| discriminate].
  unfold setitem. destruct (c <? length r)%nat; [| discriminate].
  intros [= <- <-]. simpl. now rewrite length_insert.
Qed.

Lemma for_each_frame (ts : list Q) (s s' : store) (u : unit) :
  Py.for_each ts loop_body s = Ok (u, s') ->
  g_ref_profile s' = g_ref_profile s /\ v_t s' = v_t s /\
  length (v_r s') = length (v_r s).
Proof.
  revert s. induction ts as [| val ts IH]; simpl; intros s.
  - intros [= <- <-]. auto.
  - unfold Py.bind. destruct (loop_body val s) as [[u1 s1] | e] eqn:E;
      [| discriminate].
    intros H. apply IH in H as (H1 & H2 & H3).
    apply loop_body_frame in E as (E1 & E2 & E3).
    repeat split; congruence.
Qed.

Lemma run_keys_in (ks : list Z) (ck : Z) (ts : list Q) :
  ck ∈ ks -> Forall (fun k => k ∈ ks) (run_keys ks ck ts).
Proof.
  revert ck. induction ts as [| val ts IH]; simpl; intros ck H;
    constructor.
  - destruct (scan_in ks val ck) as [-> | H']; assumption.
  - apply IH. destruct (scan_in ks val ck) as [-> | H']; assumption.
Qed.

Lemma carried_in (ks : list Z) (ck : Z) (ts : list Q) :
  ck ∈ ks -> carried ks ck ts ∈ ks.
Proof.
  unfold carried. revert ck. induction ts as [| val ts IH]; simpl; intros ck H.
  - exact H.
  - apply IH. destruct (scan_in ks val ck) as [-> | H']; assumption.
Qed.

Lemma run_keys_length (ks : list Z) (ck : Z) (ts : list Q) :
  length (run_keys ks ck ts) = length ts.
Proof. revert ck. induction ts; simpl; auto. Qed.

(** The outer loop from any store whose current key is a key of the
    profile and whose array has room for the remaining timestamps. *)
Lemma for_each_loop_run (ts : list Q) (p : profile) (t r : list Q)
    (ck : Z) (c : nat) :
  ck ∈ keys p -> (c + length ts <= length r)%nat ->
  Py.for_each ts loop_body (Store p t r ck c) =
  Ok (tt, Store p t
            (take c r ++ map (value_at p) (run_keys (keys p) ck ts)
                    ++ drop (c + length ts) r)
            (carried (keys p) ck ts) (c + length ts)).
Proof.
  revert r ck c. induction ts as [| val ts IH]; intros r ck c Hck Hlen.
  - simpl. unfold Py.ret. rewrite Nat.add_0_r, take_drop. reflexivity.
  - simpl in Hlen. simpl Py.for_each. unfold Py.bind.
    rewrite loop_body_run.
    assert (Hk : scan (keys p) val ck ∈ keys p).
    { destruct (scan_in (keys p) val ck) as [-> | H]; assumption. }
    rewrite (getitem_key p _ Hk). unfold setitem.
    destruct (Nat.ltb_spec c (length r)) as [L | L]; [| lia].
    rewrite IH; [| exact Hk | rewrite length_insert; lia].
    simpl. do 2 f_equal. f_equal; [| lia].
    rewrite (take_S_r _ _ (value_at p (scan (keys p) val ck)))
      by (now apply list_lookup_insert_eq).
    rewrite take_insert_ge, drop_insert_lt by lia.
    rewrite <- app_assoc. simpl.
    now replace (c + S (length ts))%nat with (S (c + length ts)) by lia.
Qed.

(** The whole fragment, from any values of the locals. *)
Lemma build_step_reference_run (p : profile) (ts r : list Q) (ck : Z)
    (c : nat) :
  0 ∈ keys p ->
  build_step_reference (Store p ts r ck c) =
  Ok (tt, Store p ts (map (value_at p) (run_keys (keys p) 0 ts))
            (carried (keys p) 0 ts) (length ts)).
Proof.
  intros H0. unfold build_step_reference, init_locals, Py.bind, Py.read,
    Py.assign, set_r, set_crnt_key, set_counter. simpl.
  rewrite for_each_loop_run;
    [| exact H0 | unfold zeros_like; rewrite length_replicate; lia].
  simpl. do 3 f_equal.
  rewrite drop_ge by (unfold zeros_like; rewrite length_replicate; lia).
  now rewrite app_nil_r.
Qed.

Lemma build_reference_eq (p : profile) (ts : list Q) :
  0 ∈ keys p ->
  build_reference p ts = Ok (map (value_at p) (run_keys (keys p) 0 ts)).
Proof.
  intros H0. unfold build_reference, initial_store.
  now rewrite build_step_reference_run.
Qed.

Lemma carried_snoc (ks : list Z) (ck : Z) (ts : list Q) (t : Q) :
  carried ks ck (ts ++ [t]) = scan ks t (carried ks ck ts).
Proof. unfold carried. now rewrite foldl_app. Qed.

(** The key of iteration [i]: the inner loop run on timestamp [i],
    started from the key the earlier iterations left. *)
Lemma run_keys_lookup (ks : list Z) (ck : Z) (ts : list Q) (i : nat) (t : Q) :
  ts !! i = Some t ->
  run_keys ks ck ts !! i = Some (scan ks t (carried ks ck (take i ts))).
Proof.
  revert ck i. induction ts as [| val ts IH]; intros ck i H; [discriminate |].
  destruct i as [| i]; simpl in *.
  - now injection H as ->.
  - now apply IH.
Qed.

Lemma emits_scan (p : profile) (ts : list Q) (i : nat) (t : Q) :
  0 ∈ keys p -> ts !! i = Some t ->
  emits p ts i (scan (keys p) t (carried (keys p) 0 (take i ts))).
Proof.
  intros H0 Hi. unfold emits.
  exists (map (value_at p) (run_keys (keys p) 0 ts)).
  exists (value_at p (scan (keys p) t (carried (keys p) 0 (take i ts)))).
  split; [now apply build_reference_eq |]. split.
  - apply getitem_key.
    destruct (scan_in (keys p) t (carried (keys p) 0 (take i ts)))
      as [-> | H]; [now apply carried_in | exact H].
  - rewrite list_lookup_fmap, (run_keys_lookup _ _ _ _ t Hi). reflexivity.
Qed.

(** An element of the output is the value of one key only when the
    values agree. *)
Lemma emits_inv (p : profile) (ts out : list Q) (i : nat) (k : Z) (v w : Q) :
  build_reference p ts = Ok out -> out !! i = Some v ->
  getitem p k = Ok w -> emits p ts i k -> v = w.
Proof.
  intros B O G (out' & v' & B' & G' & O'). congruence.
Qed.

(** ** The last threshold crossed *)

(** On an ascending key list the inner loop stops on the largest key
    below [t], whatever key it started from. *)
Lemma scan_largest_key_below (ks : list Z) (t : Q) (ck k : Z) :
  ascending ks = true -> largest_key_below ks t k -> scan ks t ck = k.
Proof.
  intros A Hk. rewrite (scan_ascending _ _ _ A).
  apply largest_below_Some in Hk. now rewrite Hk.
Qed.

(** C1, as amended.  For a profile containing key 0 whose items are
    stored in ascending key order, and a timestamp [t] at position [i]
    of the time vector such that some key is strictly less than [t],
    element [i] of the output is the profile value at the largest key
    strictly less than [t]. *)
Theorem C1_last_threshold_crossed (p : profile) (ts : list Q) (i : nat)
    (t : Q) (k : Z) :
  ascending (keys p) = true -> 0 ∈ keys p ->
  ts !! i = Some t -> largest_key_below (keys p) t k ->
  emits p ts i k.
Proof.
  intros A H0 Hi Hk. pose proof (emits_scan p ts i t H0 Hi) as E.
  now rewrite (scan_largest_key_below _ _ _ k A Hk) in E.
Qed.

Lemma C1_last_threshold_crossed_witness :
  ascending (keys ref_profile) = true /\ 0 ∈ keys ref_profile /\
  times8 !! 4%nat = Some (31 # 10)%Q /\
  largest_key_below (keys ref_profile) (31 # 10)%Q 3 /\
  emits ref_profile times8 4 3.
Proof.
  assert (L : largest_key_below (keys ref_profile) (31 # 10)%Q 3).
  { apply largest_below_Some. reflexivity. }
  assert (H0 : 0 ∈ keys ref_profile) by left.
  repeat split; try reflexivity; try apply L; try exact H0.
  exact (C1_last_threshold_crossed ref_profile times8 4 (31 # 10)%Q 3
           eq_refl H0 eq_refl L).
Defined.

(** C1 fails as stated: it speaks of every profile containing key 0,
    but the inner loop keeps the last key below [t] in storage order,
    not the largest.  In [{3: 0.5, 0: 1.0, 6: 1.5}] the largest key
    below 5 is 3, and the loop emits the value of key 0. *)
Lemma C1_counterexample :
  0 ∈ keys profile3_shuffled /\ NoDup (keys profile3_shuffled) /\
  [5%Q] !! 0%nat = Some 5%Q /\
  largest_key_below (keys profile3_shuffled) 5%Q 3 /\
  build_reference profile3_shuffled [5%Q] = Ok [1%Q] /\
  getitem profile3_shuffled 3 = Ok (1 # 2)%Q /\
  ~ emits profile3_shuffled [5%Q] 0 3.
Proof.
  assert (H0 : 0 ∈ keys profile3_shuffled) by (right; left).
  repeat split; try reflexivity; try exact H0.
  - solve_NoDup.
  - left.
  - intros k' Hk'. elem_cases Hk'; unfold Qlt; simpl; lia.
  - intros E.
    pose proof (emits_inv profile3_shuffled [5%Q] [1%Q] 0 3 1%Q (1 # 2)%Q
                  eq_refl eq_refl eq_refl E).
    discriminate.
Qed.

(** ** The boundary: a timestamp equal to a key *)

(** C2, as amended.  For a profile containing key 0 whose items are
    stored in ascending key order [k_0 < k_1 < ...], and a timestamp
    equal to a key [k_(j+1)], the output element is the value of the
    previous key [k_j], which is not [k_(j+1)]: the comparison
    [val > item] is strict. *)
Theorem C2_equal_key_emits_previous (p : profile) (ts : list Q) (i j : nat)
    (t : Q) (k kprev : Z) :
  ascending (keys p) = true -> 0 ∈ keys p ->
  keys p !! S j = Some k -> keys p !! j = Some kprev ->
  ts !! i = Some t -> (t == inject_Z k)%Q ->
  emits p ts i kprev /\ kprev < k.
Proof.
  intros A H0 Hk Hprev Hi E.
  assert (L : kprev < k) by (eapply (ascending_lookup _ j (S j)); eauto).
  split; [| exact L].
  pose proof (emits_scan p ts i t H0 Hi) as Em.
  rewrite (scan_largest_key_below _ _ _ kprev A) in Em; [exact Em |].
  repeat split.
  - eapply list_elem_of_lookup_2. eassumption.
  - rewrite E, <- Zlt_Qlt. exact L.
  - intros k' Hk' L'. rewrite E, <- Zlt_Qlt in L'.
    apply list_elem_of_lookup_1 in Hk' as [m Hm].
    destruct (Nat.le_gt_cases m j) as [Le | Gt].
    + destruct (Nat.eq_dec m j) as [-> | Ne];
        [assert (k' = kprev) by congruence; lia |].
      assert (k' < kprev) by (eapply (ascending_lookup _ m j); eauto; lia). lia.
    + destruct (Nat.eq_dec m (S j)) as [-> | Ne];
        [assert (k' = k) by congruence; lia |].
      assert (k < k') by (eapply (ascending_lookup _ (S j) m); eauto; lia). lia.
Qed.

Lemma C2_equal_key_emits_previous_witness :
  ascending (keys ref_profile) = true /\ 0 ∈ keys ref_profile /\
  keys ref_profile !! 2%nat = Some 6 /\ keys ref_profile !! 1%nat = Some 3 /\
  times8 !! 6%nat = Some 6%Q /\ (6 == inject_Z 6)%Q /\
  emits ref_profile times8 6 3 /\ 3 < 6.
Proof.
  assert (H0 : 0 ∈ keys ref_profile) by left.
  assert (E : (6 == inject_Z 6)%Q) by reflexivity.
  repeat split; try reflexivity; try exact H0;
    apply (C2_equal_key_emits_previous ref_profile times8 6 1 6%Q 6 3
             eq_refl H0 eq_refl eq_refl eq_refl E).
Defined.

(** C2 fails as stated when the items are not stored in ascending key
    order.  In [{3: 0.5, 0: 1.0, 6: 1.5}] the keys in ascending order
    are 0, 3, 6; at [t = 6] the previous key is 3, and the loop emits
    the value of key 0. *)
Lemma C2_counterexample :
  0 ∈ keys profile3_shuffled /\ NoDup (keys profile3_shuffled) /\
  6 ∈ keys profile3_shuffled /\ (6 == inject_Z 6)%Q /\
  largest_key_below (keys profile3_shuffled) (inject_Z 6) 3 /\
  build_reference profile3_shuffled [6%Q] = Ok [1%Q] /\
  getitem profile3_shuffled 3 = Ok (1 # 2)%Q /\
  ~ emits profile3_shuffled [6%Q] 0 3.
Proof.
  assert (H0 : 0 ∈ keys profile3_shuffled) by (right; left).
  repeat split; try reflexivity; try exact H0.
  - solve_NoDup.
  - right; right; left.
  - left.
  - intros k' Hk'. elem_cases Hk'; unfold Qlt; simpl; lia.
  - intros E.
    pose proof (emits_inv profile3_shuffled [6%Q] [1%Q] 0 3 1%Q (1 # 2)%Q
                  eq_refl eq_refl eq_refl E).
    discriminate.
Qed.

(** ** The scenario of the specification *)

(** C3.  Profile [{0: 1.0, 3: 0.5, 6: 1.5}], times
    [0, 1, 2.9, 3, 3.1, 5.9, 6, 100]: the loop produces
    [1.0, 1.0, 1.0, 1.0, 0.5, 0.5, 0.5, 1.5]. *)
Theorem C3_concrete_scenario :
  build_reference profile3 times8 =
  Ok [ 1%Q; 1%Q; 1%Q; 1%Q; (1 # 2)%Q; (1 # 2)%Q; (1 # 2)%Q; (3 # 2)%Q ].
Proof. reflexivity. Qed.

(** Rounding the decimal timestamps to float64 changes no comparison
    with a key. *)
Example concrete_scenario_float64 :
  build_reference profile3 times8_float64 = build_reference profile3 times8.
Proof. reflexivity. Qed.

(** ** Storage order of the profile *)

Lemma run_keys_largest (ks : list Z) (ck : Z) (ts : list Q) :
  ascending ks = true -> run_keys ks ck ts = largest_keys ks ck ts.
Proof.
  intros A. revert ck. induction ts as [| t ts IH]; simpl; intros ck.
  - reflexivity.
  - now rewrite (scan_ascending _ _ _ A), IH.
Qed.

Lemma largest_keys_perm (ks ks' : list Z) (ck : Z) (ts : list Q) :
  ks ≡ₚ ks' -> largest_keys ks ck ts = largest_keys ks' ck ts.
Proof.
  intros P. revert ck. induction ts as [| t ts IH]; simpl; intros ck.
  - reflexivity.
  - now rewrite (largest_below_perm _ _ t P), IH.
Qed.

Lemma collect_keys (p : profile) (l : list Z) :
  Forall (fun k => k ∈ keys p) l ->
  collect p (Some <$> l) = Ok (map (value_at p) l).
Proof.
  induction 1 as [| k l Hk _ IH]; [reflexivity |].
  rewrite fmap_cons. simpl. now rewrite (getitem_key _ _ Hk), IH.
Qed.

Lemma value_at_perm (p q : profile) (k : Z) :
  NoDup (keys p) -> p ≡ₚ q -> value_at q k = value_at p k.
Proof. intros ND P. unfold value_at. now rewrite (getitem_perm p q). Qed.

Lemma keys_perm (p q : profile) : p ≡ₚ q -> keys p ≡ₚ keys q.
Proof. intros P. unfold keys. now rewrite P. Qed.

Lemma build_by_largest_key_perm (p q : profile) (ts : list Q) :
  ascending (keys p) = true -> 0 ∈ keys p -> p ≡ₚ q ->
  build_reference p ts = build_by_largest_key q ts.
Proof.
  intros A H0 P. pose proof (keys_perm p q P) as PK.
  rewrite (build_reference_eq p ts H0), (run_keys_largest _ _ _ A).
  unfold build_by_largest_key.
  rewrite <- (largest_keys_perm _ _ 0 ts PK).
  rewrite collect_keys.
  - f_equal. apply map_ext. intros k. symmetry.
    apply value_at_perm; [now apply ascending_NoDup | exact P].
  - rewrite <- (run_keys_largest _ _ _ A).
    eapply Forall_impl; [apply run_keys_in; exact H0 |].
    intros k Hk. simpl in Hk. now rewrite <- PK.
Qed.

(** C4, as amended.  For a profile containing key 0 whose items are
    stored in ascending key order, the output of the loop is determined
    by the key-to-value mapping alone: for every permutation [q] of the
    items it is the order-free reading of [q] (at each timestamp the
    value of the largest key strictly below it, of the key of the
    previous timestamp when there is none), and it is the output of the
    loop on [q] when [q] is stored in ascending key order too. *)
Theorem C4_ascending_storage_fixes_output (p q : profile) (ts : list Q) :
  ascending (keys p) = true -> 0 ∈ keys p -> p ≡ₚ q ->
  build_reference p ts = build_by_largest_key q ts /\
  (ascending (keys q) = true -> build_reference q ts = build_reference p ts).
Proof.
  intros A H0 P. split; [now apply build_by_largest_key_perm |].
  intros Aq.
  rewrite (build_by_largest_key_perm p q ts A H0 P).
  apply build_by_largest_key_perm; [exact Aq | | reflexivity].
  now rewrite <- (keys_perm p q P).
Qed.

Lemma C4_ascending_storage_fixes_output_witness :
  ascending (keys profile3) = true /\ 0 ∈ keys profile3 /\
  profile3 ≡ₚ profile3_shuffled /\
  (build_reference profile3 times8 =
     build_by_largest_key profile3_shuffled times8 /\
   (ascending (keys profile3_shuffled) = true ->
    build_reference profile3_shuffled times8 =
      build_reference profile3 times8)).
Proof.
  assert (H0 : 0 ∈ keys profile3) by left.
  assert (P : profile3 ≡ₚ profile3_shuffled) by apply Permutation_swap.
  split; [reflexivity |]. split; [exact H0 |]. split; [exact P |].
  exact (C4_ascending_storage_fixes_output profile3 profile3_shuffled times8
           eq_refl H0 P).
Defined.

(** C4 fails as stated: the two storage orders of one dictionary give
    different outputs at [t = 5]. *)
Lemma C4_counterexample :
  NoDup (keys profile3) /\ profile3 ≡ₚ profile3_shuffled /\
  build_reference profile3 [5%Q] = Ok [(1 # 2)%Q] /\
  build_reference profile3_shuffled [5%Q] = Ok [1%Q] /\
  build_reference profile3 [5%Q] <> build_reference profile3_shuffled [5%Q].
Proof.
  repeat split; try reflexivity.
  - solve_NoDup.
  - apply Permutation_swap.
  - discriminate.
Qed.

(** ** Dependence on the earlier timestamps *)

Lemma carried_none (ks : list Z) (ck : Z) (ts : list Q) :
  (forall t, t ∈ ts -> no_key_below ks t) -> carried ks ck ts = ck.
Proof.
  unfold carried. revert ck. induction ts as [| t ts IH]; simpl; intros ck H.
  - reflexivity.
  - rewrite scan_none.
    + apply IH. intros t' Ht'. apply H. now right.
    + intros k Hk. apply gt_le. apply (H t); [left | exact Hk].
Qed.

(** C5, as amended.  For a profile containing key 0, an output element
    depends only on the timestamp at its position and the profile when
    some key is strictly less than that timestamp: two time vectors
    that agree at position [i] on such a timestamp give outputs that
    agree at position [i]. *)
Theorem C5_position_independent_above_a_key (p : profile) (ts1 ts2 : list Q)
    (i : nat) (t1 t2 : Q) (k : Z) :
  0 ∈ keys p ->
  ts1 !! i = Some t1 -> ts2 !! i = Some t2 -> (t1 == t2)%Q ->
  k ∈ keys p -> (inject_Z k < t1)%Q ->
  exists out1 out2 v,
    build_reference p ts1 = Ok out1 /\ build_reference p ts2 = Ok out2 /\
    out1 !! i = Some v /\ out2 !! i = Some v.
Proof.
  intros H0 H1 H2 E Hk L. apply gt_lt in L.
  destruct (emits_scan p ts1 i t1 H0 H1) as (out1 & v1 & B1 & G1 & O1).
  destruct (emits_scan p ts2 i t2 H0 H2) as (out2 & v2 & B2 & G2 & O2).
  exists out1, out2, v1. repeat split; auto.
  rewrite O2. f_equal.
  rewrite <- (scan_Qeq _ t1 t2 _ E) in G2.
  destruct (scan_some (keys p) t1 (carried (keys p) 0 (take i ts1))
              (carried (keys p) 0 (take i ts2)) k Hk L) as (_ & _ & S).
  rewrite S in G1. congruence.
Qed.

Lemma C5_position_independent_above_a_key_witness :
  0 ∈ keys ref_profile /\
  times_back !! 0%nat = Some 5%Q /\
  [ (10 # 2)%Q; 30%Q ] !! 0%nat = Some (10 # 2)%Q /\
  (5 == 10 # 2)%Q /\ 3 ∈ keys ref_profile /\ (inject_Z 3 < 5)%Q /\
  exists out1 out2 v,
    build_reference ref_profile times_back = Ok out1 /\
    build_reference ref_profile [ (10 # 2)%Q; 30%Q ] = Ok out2 /\
    out1 !! 0%nat = Some v /\ out2 !! 0%nat = Some v.
Proof.
  assert (H0 : 0 ∈ keys ref_profile) by left.
  assert (H3 : 3 ∈ keys ref_profile) by (right; left).
  assert (E : (5 == 10 # 2)%Q) by reflexivity.
  assert (L : (inject_Z 3 < 5)%Q) by reflexivity.
  split; [exact H0 |]. split; [reflexivity |]. split; [reflexivity |].
  split; [exact E |]. split; [exact H3 |]. split; [exact L |].
  exact (C5_position_independent_above_a_key ref_profile times_back
           [ (10 # 2)%Q; 30%Q ] 0 5%Q (10 # 2)%Q 3
           H0 eq_refl eq_refl E H3 L).
Defined.

(** C5 fails as stated: [crnt_key] is set once before the outer loop
    and is not reset between timestamps, so a timestamp with no key
    below it gets the key an earlier timestamp selected.  The time
    vectors [5, 0] and [0, 0] agree at position 1; the outputs there
    are 0.5 and 1.0. *)
Lemma C5_counterexample :
  0 ∈ keys ref_profile /\
  times_back !! 1%nat = Some 0%Q /\ [ 0%Q; 0%Q ] !! 1%nat = Some 0%Q /\
  build_reference ref_profile times_back = Ok [ (1 # 2)%Q; (1 # 2)%Q ] /\
  build_reference ref_profile [ 0%Q; 0%Q ] = Ok [ 1%Q; 1%Q ] /\
  [ (1 # 2)%Q; (1 # 2)%Q ] !! 1%nat <> [ 1%Q; 1%Q ] !! 1%nat.
Proof.
  repeat split; try reflexivity.
  - left.
  - discriminate.
Qed.

(** ** Timestamps below every key *)

Lemma emits_carried (p : profile) (ts : list Q) (i : nat) (t : Q) :
  0 ∈ keys p -> ts !! i = Some t -> no_key_below (keys p) t ->
  emits p ts i (carried (keys p) 0 (take i ts)).
Proof.
  intros H0 Hi N. pose proof (emits_scan p ts i t H0 Hi) as E.
  rewrite scan_none in E; [exact E |].
  intros k Hk. apply gt_le. now apply N.
Qed.

(** C6, as amended.  For a profile whose smallest key is 0 and a
    position [i] such that the timestamp there and at every earlier
    position is less than or equal to every key, the loop emits the
    value at the smallest key, key 0. *)
Theorem C6_below_every_key_emits_key_0 (p : profile) (ts : list Q) (i : nat)
    (t : Q) :
  smallest_key (keys p) 0 ->
  ts !! i = Some t ->
  (forall j t', (j <= i)%nat -> ts !! j = Some t' ->
                no_key_below (keys p) t') ->
  emits p ts i 0.
Proof.
  intros [H0 _] Hi N.
  pose proof (emits_carried p ts i t H0 Hi (N i t (Nat.le_refl i) Hi)) as E.
  rewrite carried_none in E; [exact E |].
  intros t' Ht'. apply list_elem_of_lookup_1 in Ht' as [j Hj].
  apply lookup_take_Some in Hj as [Hj Lj].
  apply (N j t'); [lia | exact Hj].
Qed.

Lemma C6_below_every_key_emits_key_0_witness :
  smallest_key (keys ref_profile) 0 /\
  [ (-1)%Q; 0%Q ] !! 1%nat = Some 0%Q /\
  (forall j t', (j <= 1)%nat -> [ (-1)%Q; 0%Q ] !! j = Some t' ->
                no_key_below (keys ref_profile) t') /\
  emits ref_profile [ (-1)%Q; 0%Q ] 1 0.
Proof.
  assert (S0 : smallest_key (keys ref_profile) 0).
  { split; [left |]. intros k Hk. elem_cases Hk; lia. }
  assert (N : forall j t', (j <= 1)%nat -> [ (-1)%Q; 0%Q ] !! j = Some t' ->
                           no_key_below (keys ref_profile) t').
  { intros j t' Lj Hj k Hk.
    destruct j as [| [| j]]; [| | lia]; injection Hj as <-;
      elem_cases Hk; unfold Qle; simpl; lia. }
  split; [exact S0 |]. split; [reflexivity |]. split; [exact N |].
  exact (C6_below_every_key_emits_key_0 ref_profile [ (-1)%Q; 0%Q ] 1 0%Q
           S0 eq_refl N).
Defined.

(** C6 fails as stated: in the time vector [5, 0] the timestamp 0 is
    less than or equal to every key of [ref_profile], whose smallest
    key is 0 with value 1.0; the loop emits 0.5, the value of key 3
    that the timestamp 5 selected. *)
Lemma C6_counterexample :
  0 ∈ keys ref_profile /\
  times_back !! 1%nat = Some 0%Q /\
  no_key_below (keys ref_profile) 0%Q /\
  smallest_key (keys ref_profile) 0 /\
  build_reference ref_profile times_back = Ok [ (1 # 2)%Q; (1 # 2)%Q ] /\
  getitem ref_profile 0 = Ok 1%Q /\
  ~ emits ref_profile times_back 1 0.
Proof.
  assert (H0 : 0 ∈ keys ref_profile) by left.
  split; [exact H0 |]. split; [reflexivity |]. split; [| split; [| split]].
  - intros k Hk. elem_cases Hk; unfold Qle; simpl; lia.
  - split; [exact H0 |]. intros k Hk. elem_cases Hk; lia.
  - reflexivity.
  - split; [reflexivity |]. intros E.
    pose proof (emits_inv ref_profile times_back [ (1 # 2)%Q; (1 # 2)%Q ]
                  1 0 (1 # 2)%Q 1%Q eq_refl eq_refl eq_refl E).
    discriminate.
Qed.

(** ** Non-decreasing time vectors *)

Lemma nondecreasing_cons (t : Q) (ts : list Q) :
  nondecreasing (t :: ts) = true <->
  (forall t', t' ∈ ts -> (t <= t')%Q) /\ nondecreasing ts = true.
Proof.
  simpl. rewrite andb_true_iff, forallb_forall.
  split; intros [H1 H2]; (split; [| exact H2]); intros t' Ht'.
  - apply Qle_bool_iff, H1. now apply list_elem_of_In.
  - apply Qle_bool_iff, H1. now apply list_elem_of_In.
Qed.

Lemma nondecreasing_lookup (ts : list Q) (i j : nat) (a b : Q) :
  nondecreasing ts = true -> ts !! i = Some a -> ts !! j = Some b ->
  (i <= j)%nat -> (a <= b)%Q.
Proof.
  revert i j. induction ts as [| t ts IH]; intros i j A Hi Hj L.
  - discriminate.
  - apply nondecreasing_cons in A as [A1 A2].
    destruct i as [| i]; simpl in Hi.
    + injection Hi as ->. destruct j as [| j]; simpl in Hj.
      * injection Hj as ->. apply Qle_refl.
      * apply A1. eapply list_elem_of_lookup_2. eassumption.
    + destruct j as [| j]; [lia |]. simpl in Hj.
      eapply (IH i j); eauto; lia.
Qed.

(** On a time vector that never decreases, a timestamp below every key
    is preceded only by such timestamps. *)
Lemma below_every_key_nondecreasing (p : profile) (ts : list Q) (i : nat)
    (t : Q) :
  nondecreasing ts = true -> smallest_key (keys p) 0 ->
  ts !! i = Some t -> no_key_below (keys p) t ->
  emits p ts i 0.
Proof.
  intros M [H0 _] Hi N.
  pose proof (emits_carried p ts i t H0 Hi N) as E.
  rewrite carried_none in E; [exact E |].
  intros t' Ht' k Hk. apply list_elem_of_lookup_1 in Ht' as [j Hj].
  apply lookup_take_Some in Hj as [Hj Lj].
  eapply Qle_trans; [| apply (N k Hk)].
  apply (nondecreasing_lookup ts j i); auto. lia.
Qed.

(** ** The two-pointer merge and the full rescan *)

(** Advancing again from where the cursor stopped, for a later
    timestamp, ends where advancing from the start does. *)
Lemma advance_resume (rest0 : profile) (e0 cur : Z * Q) (rest : profile)
    (t t' : Q) :
  advance e0 rest0 t = (cur, rest) -> (t <= t')%Q ->
  advance cur rest t' = advance e0 rest0 t'.
Proof.
  revert e0. induction rest0 as [| [k v] rest0 IH]; simpl; intros e0 H L.
  - now injection H as <- <-.
  - destruct (gt t k) eqn:G.
    + rewrite (gt_mono t t' k L G). now apply IH.
    + now injection H as <- <-.
Qed.

Lemma two_pointer_from_restart (e0 : Z * Q) (rest0 : profile) (ts : list Q)
    (cur : Z * Q) (rest : profile) :
  nondecreasing ts = true ->
  (forall t, t ∈ ts -> advance cur rest t = advance e0 rest0 t) ->
  two_pointer_from cur rest ts = map (fun t => (advance e0 rest0 t).1.2) ts.
Proof.
  revert cur rest. induction ts as [| t ts IH]; simpl two_pointer_from;
    intros cur rest M H.
  - reflexivity.
  - apply nondecreasing_cons in M as [M1 M2].
    rewrite (H t) by left.
    destruct (advance e0 rest0 t) as [cur' rest'] eqn:E. simpl.
    f_equal; [now rewrite E |].
    apply IH; [exact M2 |]. intros t' Ht'.
    apply (advance_resume rest0 e0 cur' rest' t t' E). now apply M1.
Qed.

Lemma advance_elem (rest : profile) (e : Z * Q) (t : Q) :
  (advance e rest t).1 ∈ e :: rest.
Proof.
  revert e. induction rest as [| [k v] rest IH]; simpl; intros e.
  - left.
  - destruct (gt t k); [right; apply IH | left].
Qed.

Lemma largest_below_cons_ascending (k : Z) (ks : list Z) (t : Q) :
  ascending (k :: ks) = true ->
  largest_below (k :: ks) t =
  if gt t k then Some (default k (largest_below ks t)) else None.
Proof.
  intros A. destruct (gt t k) eqn:G.
  - destruct (largest_below ks t) as [m |] eqn:E; simpl.
    + apply largest_below_Some in E as (Hm & L & Hmax).
      apply largest_below_Some. repeat split; [now right | exact L |].
      intros k' Hk' L'. apply elem_of_cons in Hk' as [-> | Hk']; [| auto].
      apply ascending_cons in A as [A _]. specialize (A m Hm). lia.
    + apply largest_below_None in E.
      apply largest_below_Some. repeat split; [left | now apply gt_lt |].
      intros k' Hk' L'. apply elem_of_cons in Hk' as [-> | Hk']; [lia |].
      specialize (E k' Hk'). apply Qle_not_lt in E. contradiction.
  - apply largest_below_None. intros k' Hk'. apply gt_le.
    apply elem_of_cons in Hk' as [-> | Hk']; [exact G |].
    now apply (ascending_tail_not_below k ks).
Qed.

Lemma advance_key (rest : profile) (e : Z * Q) (t : Q) :
  ascending (keys (e :: rest)) = true ->
  (advance e rest t).1.1 = default e.1 (largest_below (keys rest) t).
Proof.
  revert e. induction rest as [| [k v] rest IH]; intros e A.
  - reflexivity.
  - assert (A' : ascending (keys ((k, v) :: rest)) = true).
    { unfold keys in *. simpl in A. apply andb_true_iff in A as [_ A].
      exact A. }
    simpl advance. change (keys ((k, v) :: rest)) with (k :: keys rest) in *.
    rewrite (largest_below_cons_ascending k (keys rest) t A').
    destruct (gt t k); [| reflexivity]. now rewrite (IH (k, v) A').
Qed.

Lemma foldr_min_lower (k : Z) (l : list Z) :
  (forall x, x ∈ l -> k < x) -> foldr Z.min k l = k.
Proof.
  induction l as [| a l IH]; simpl; intros H; [reflexivity |].
  rewrite IH by (intros x Hx; apply H; now right).
  specialize (H a ltac:(left)). lia.
Qed.

(** On a profile stored in ascending key order the cursor, advanced
    from the first entry, stops on the key of the specification. *)
Lemma spec_current_key_advance (e : Z * Q) (rest : profile) (t : Q) :
  ascending (keys (e :: rest)) = true ->
  spec_current_key (keys (e :: rest)) t = Some (advance e rest t).1.1.
Proof.
  intros A. rewrite (advance_key rest e t A). unfold spec_current_key.
  change (keys (e :: rest)) with (e.1 :: keys rest) in *.
  rewrite (largest_below_cons_ascending _ _ t A).
  destruct (gt t e.1) eqn:G; [reflexivity |].
  assert (largest_below (keys rest) t = None) as ->.
  { apply largest_below_None. intros k Hk. apply gt_le.
    now apply (ascending_tail_not_below e.1 (keys rest)). }
  simpl. f_equal. apply foldr_min_lower.
  now apply ascending_cons in A as [A _].
Qed.

Lemma getitem_advance (e : Z * Q) (rest : profile) (t : Q) :
  ascending (keys (e :: rest)) = true ->
  getitem (e :: rest) (advance e rest t).1.1 = Ok (advance e rest t).1.2.
Proof.
  intros A. apply getitem_nodup; [now apply ascending_NoDup |].
  pose proof (advance_elem rest e t) as H.
  now destruct ((advance e rest t).1).
Qed.

Lemma spec_build_reference_advance (e : Z * Q) (rest : profile)
    (ts : list Q) :
  ascending (keys (e :: rest)) = true ->
  spec_build_reference (e :: rest) ts =
  Ok (map (fun t => (advance e rest t).1.2) ts).
Proof.
  intros A. unfold spec_build_reference.
  induction ts as [| t ts IH]; [reflexivity |].
  rewrite map_cons, (spec_current_key_advance e rest t A).
  cbn [collect]. now rewrite (getitem_advance e rest t A), IH.
Qed.

(** C7.  For a profile stored in ascending key order and a time vector
    that never decreases, the two-pointer formulation and the
    per-timestamp full rescan of the specification (largest key
    strictly less than [t], the smallest key when there is none)
    compute the same array; for a non-empty profile both return one. *)
Theorem C7_two_pointer_equals_full_rescan (p : profile) (ts : list Q) :
  ascending (keys p) = true -> nondecreasing ts = true ->
  two_pointer_build_reference p ts = spec_build_reference p ts /\
  (p <> [] -> exists out, spec_build_reference p ts = Ok out /\
                          length out = length ts).
Proof.
  intros A M. destruct p as [| e rest].
  - split; [| congruence]. destruct ts; reflexivity.
  - rewrite (spec_build_reference_advance e rest ts A). split.
    + unfold two_pointer_build_reference. f_equal.
      now apply two_pointer_from_restart.
    + intros _. eexists. split; [reflexivity |]. now rewrite length_map.
Qed.

Lemma C7_two_pointer_equals_full_rescan_witness :
  ascending (keys ref_profile) = true /\ nondecreasing times8 = true /\
  (two_pointer_build_reference ref_profile times8 =
     spec_build_reference ref_profile times8 /\
   (ref_profile <> [] ->
    exists out, spec_build_reference ref_profile times8 = Ok out /\
                length out = length times8)).
Proof.
  split; [reflexivity |]. split; [reflexivity |].
  exact (C7_two_pointer_equals_full_rescan ref_profile times8
           eq_refl eq_refl).
Defined.

(** ** The loop on its intended inputs *)

Lemma min_of_ascending (ks : list Z) :
  ascending ks = true -> smallest_key ks 0 -> min_of ks = Some 0.
Proof.
  intros A [H0 Hmin]. destruct ks as [| a ks]; [inversion H0 |].
  apply ascending_cons in A as [A _]. simpl.
  rewrite foldr_min_lower by exact A. f_equal.
  apply elem_of_cons in H0 as [-> | H0]; [reflexivity |].
  specialize (A 0 H0). specialize (Hmin a ltac:(left)). lia.
Qed.

(** The key carried between iterations is 0 until a timestamp exceeds
    a key, and from then on a key that every later timestamp of a
    non-decreasing time vector exceeds. *)
Lemma run_keys_spec (ks : list Z) (ts : list Q) (ck : Z) :
  ascending ks = true -> smallest_key ks 0 -> nondecreasing ts = true ->
  ck = 0 \/ (ck ∈ ks /\ forall t, t ∈ ts -> gt t ck = true) ->
  map (spec_current_key ks) ts = Some <$> run_keys ks ck ts.
Proof.
  intros A S0. revert ck. induction ts as [| t ts IH]; intros ck M Inv.
  - reflexivity.
  - apply nondecreasing_cons in M as [M1 M2].
    rewrite map_cons. simpl run_keys. rewrite fmap_cons.
    rewrite (scan_ascending _ _ _ A). unfold spec_current_key at 1.
    destruct (largest_below ks t) as [k |] eqn:E; simpl.
    + f_equal. apply IH; [exact M2 |]. right.
      apply largest_below_Some in E as (Hk & L & _). split; [exact Hk |].
      intros t' Ht'. apply (gt_mono t t'); [now apply M1 | now apply gt_lt].
    + apply largest_below_None in E.
      destruct Inv as [-> | [Hck G]].
      * rewrite (min_of_ascending ks A S0). f_equal. apply IH; auto.
      * specialize (G t ltac:(left)). apply gt_lt in G.
        specialize (E ck Hck). apply Qle_not_lt in E. contradiction.
Qed.

(** For a profile stored in ascending key order with smallest key 0
    and a time vector that never decreases, the fragment computes the
    array of the specification. *)
Lemma build_reference_meets_spec (p : profile) (ts : list Q) :
  ascending (keys p) = true -> smallest_key (keys p) 0 ->
  nondecreasing ts = true ->
  build_reference p ts = spec_build_reference p ts.
Proof.
  intros A S0 M. pose proof S0 as [H0 _].
  rewrite (build_reference_eq p ts H0). unfold spec_build_reference.
  rewrite (run_keys_spec (keys p) ts 0 A S0 M) by now left.
  symmetry. apply collect_keys. now apply run_keys_in.
Qed.

Example ref_profile_meets_spec :
  build_reference ref_profile times8 = spec_build_reference ref_profile times8
  /\ build_reference ref_profile times8
     = two_pointer_build_reference ref_profile times8.
Proof. split; reflexivity. Qed.

(** ** Totality *)

Lemma prefix_run (p : profile) (ts1 ts2 r : list Q) (ck : Z) (c : nat) :
  0 ∈ keys p ->
  (init_locals ;; Py.for_each ts1 loop_body)%py (Store p (ts1 ++ ts2) r ck c) =
  Ok (tt, Store p (ts1 ++ ts2)
            (map (value_at p) (run_keys (keys p) 0 ts1)
               ++ zeros_like ts2)
            (carried (keys p) 0 ts1) (length ts1)).
Proof.
  intros H0. unfold init_locals, Py.bind, Py.read, Py.assign, set_r,
    set_crnt_key, set_counter. simpl.
  rewrite for_each_loop_run;
    [| exact H0
     | unfold zeros_like; rewrite length_replicate, length_app; lia].
  simpl. do 3 f_equal. unfold zeros_like.
  now rewrite drop_replicate, length_app, Nat.add_sub'.
Qed.

(** C8.  For every profile containing key 0 and every time vector the
    fragment returns an array, raising neither [KeyError] nor
    [IndexError]; after the initialisation and any number of iterations
    of the outer loop, [crnt_key] is a key of the profile and
    [ref_profile[crnt_key]] is defined. *)
Theorem C8_loop_never_fails (p : profile) (ts : list Q) :
  0 ∈ keys p ->
  (exists out, build_reference p ts = Ok out) /\
  (forall ts1 ts2, ts = ts1 ++ ts2 ->
     exists s,
       (init_locals ;; Py.for_each ts1 loop_body)%py (initial_store p ts)
         = Ok (tt, s) /\
       v_crnt_key s ∈ keys p /\
       exists v, getitem p (v_crnt_key s) = Ok v).
Proof.
  intros H0. split.
  - eexists. now apply build_reference_eq.
  - intros ts1 ts2 ->. unfold initial_store.
    eexists. split; [now apply prefix_run |]. simpl.
    pose proof (carried_in (keys p) 0 ts1 H0) as Hk.
    split; [exact Hk |]. eexists. now apply getitem_key.
Qed.

Lemma C8_loop_never_fails_witness :
  0 ∈ keys ref_profile /\
  ((exists out, build_reference ref_profile times_back = Ok out) /\
   (forall ts1 ts2, times_back = ts1 ++ ts2 ->
      exists s,
        (init_locals ;; Py.for_each ts1 loop_body)%py
          (initial_store ref_profile times_back) = Ok (tt, s) /\
        v_crnt_key s ∈ keys ref_profile /\
        exists v, getitem ref_profile (v_crnt_key s) = Ok v)).
Proof.
  assert (H0 : 0 ∈ keys ref_profile) by left.
  split; [exact H0 |].
  exact (C8_loop_never_fails ref_profile times_back H0).
Defined.

(** Without key 0 the first lookup can raise: the hypothesis of C8 is
    needed. *)
Example build_reference_without_key_0 :
  build_reference [ (3, (1 # 2)%Q) ] [ 0%Q ] = Raise KeyError.
Proof. reflexivity. Qed.

(** ** Length of the output *)

Lemma build_step_reference_frame (s s' : store) (u : unit) :
  build_step_reference s = Ok (u, s') ->
  g_ref_profile s' = g_ref_profile s /\ v_t s' = v_t s /\
  length (v_r s') = length (v_t s).
Proof.
  destruct s as [p t r ck c].
  unfold build_step_reference, init_locals, Py.bind, Py.read, Py.assign,
    set_r, set_crnt_key, set_counter. simpl.
  intros H. apply for_each_frame in H as (H1 & H2 & H3). simpl in *.
  repeat split; auto. rewrite H3. unfold zeros_like.
  now rewrite length_replicate.
Qed.

(** C9.  Whenever the fragment returns, the output array has the
    length of the time vector; it does return for a profile containing
    key 0; and an empty time vector yields an empty array, for every
    profile. *)
Theorem C9_output_length (p : profile) (ts : list Q) :
  (forall out, build_reference p ts = Ok out -> length out = length ts) /\
  (0 ∈ keys p ->
   exists out, build_reference p ts = Ok out /\ length out = length ts) /\
  build_reference p [] = Ok [].
Proof.
  assert (L : forall out, build_reference p ts = Ok out ->
                          length out = length ts).
  { unfold build_reference. intros out.
    destruct (build_step_reference (initial_store p ts)) as [[u s] | e] eqn:E;
      [| discriminate].
    intros [= <-]. now apply build_step_reference_frame in E as (_ & _ & E). }
  split; [exact L |]. split; [| reflexivity].
  intros H0. eexists. split; [now apply build_reference_eq |].
  apply L. now apply build_reference_eq.
Qed.

Lemma C9_output_length_witness :
  0 ∈ keys profile3 /\
  build_reference profile3 times8 =
    Ok [ 1%Q; 1%Q; 1%Q; 1%Q; (1 # 2)%Q; (1 # 2)%Q; (1 # 2)%Q; (3 # 2)%Q ] /\
  length [ 1%Q; 1%Q; 1%Q; 1%Q; (1 # 2)%Q; (1 # 2)%Q; (1 # 2)%Q; (3 # 2)%Q ]
    = length times8 /\
  exists out, build_reference profile3 times8 = Ok out /\
              length out = length times8.
Proof.
  assert (H0 : 0 ∈ keys profile3) by left.
  split; [exact H0 |]. split; [reflexivity |]. split.
  - exact (proj1 (C9_output_length profile3 times8) _ eq_refl).
  - exact (proj1 (proj2 (C9_output_length profile3 times8)) H0).
Defined.

(** ** Determinism and effects *)

(** The fragment assigns its three locals before it reads them. *)
Lemma build_reference_any_locals (p : profile) (ts r : list Q) (ck : Z)
    (c : nat) :
  build_step_reference (Store p ts r ck c) =
  build_step_reference (initial_store p ts).
Proof. reflexivity. Qed.

(** C10.  The result of the fragment, the exception or the final
    store with the output array, is a function of [ref_profile] and
    [t] alone: it is the same from every store that agrees on these
    two.  When the fragment returns it has left [ref_profile] and [t]
    as they were, and running it again from the store it left returns
    the same store, with the same output array. *)
Theorem C10_deterministic_and_effect_free (s : store) :
  (forall s2, g_ref_profile s2 = g_ref_profile s -> v_t s2 = v_t s ->
              build_step_reference s2 = build_step_reference s) /\
  (forall s', build_step_reference s = Ok (tt, s') ->
              g_ref_profile s' = g_ref_profile s /\ v_t s' = v_t s /\
              build_step_reference s' = Ok (tt, s')) /\
  build_reference (g_ref_profile s) (v_t s) =
    match build_step_reference s with
    | Ok (_, s') => Ok (v_r s')
    | Raise e => Raise e
    end.
Proof.
  assert (D : forall s1 s2, g_ref_profile s2 = g_ref_profile s1 ->
                            v_t s2 = v_t s1 ->
                            build_step_reference s2 = build_step_reference s1).
  { intros [p t r ck c] [p2 t2 r2 ck2 c2]. simpl. intros -> ->.
    now rewrite !(build_reference_any_locals p t). }
  split; [apply D |]. split.
  - intros s' E.
    pose proof (build_step_reference_frame s s' tt E) as (H1 & H2 & _).
    repeat split; auto. rewrite <- E. now apply D.
  - unfold build_reference. destruct s as [p t r ck c]. simpl.
    now rewrite (build_reference_any_locals p t r ck c).
Qed.

Lemma C10_deterministic_and_effect_free_witness :
  build_step_reference (Store profile3 times_back [ 7%Q ] 6 9)
    = Ok (tt, Store profile3 times_back [ (1 # 2)%Q; (1 # 2)%Q ] 3 2) /\
  build_step_reference (Store profile3 times_back [ (1 # 2)%Q; (1 # 2)%Q ] 3 2)
    = Ok (tt, Store profile3 times_back [ (1 # 2)%Q; (1 # 2)%Q ] 3 2) /\
  build_step_reference (initial_store profile3 times_back)
    = build_step_reference (Store profile3 times_back [ 7%Q ] 6 9).
Proof.
  pose proof (C10_deterministic_and_effect_free
                (Store profile3 times_back [ 7%Q ] 6 9)) as (D & F & _).
  split; [reflexivity |]. split.
  - exact (proj2 (proj2 (F _ eq_refl))).
  - exact (D (initial_store profile3 times_back) eq_refl eq_refl).
Defined.

(** * Further properties of the loop *)

(** ** When the loop raises *)

Lemma getitem_Ok_key (p : profile) (k : Z) (v : Q) :
  getitem p k = Ok v -> k ∈ keys p.
Proof.
  intros G. apply getitem_elem in G. unfold keys.
  apply list_elem_of_fmap. exists (k, v). split; [reflexivity | exact G].
Qed.

(** The fragment on a non-empty time vector, in terms of the lookup of
    its first iteration. *)
Lemma build_reference_cons (p : profile) (t : Q) (ts : list Q) :
  build_reference p (t :: ts) =
  match getitem p (scan (keys p) t 0) with
  | Ok x =>
      Ok (x :: map (value_at p) (run_keys (keys p) (scan (keys p) t 0) ts))
  | Raise e => Raise e
  end.
Proof.
  unfold build_reference, initial_store, build_step_reference, init_locals,
    Py.bind, Py.read, Py.assign, set_r, set_crnt_key, set_counter.
  cbn [v_t v_r v_crnt_key v_counter g_ref_profile Py.for_each].
  unfold Py.bind. rewrite loop_body_run.
  destruct (getitem p (scan (keys p) t 0)) as [x | e] eqn:G; [| reflexivity].
  unfold setitem, zeros_like. cbn [length replicate Nat.ltb Nat.leb].
  rewrite for_each_loop_run;
    [| eapply getitem_Ok_key; eassumption
     | rewrite length_insert; simpl; rewrite length_replicate; lia].
  cbn [v_r]. f_equal. simpl.
  rewrite drop_replicate, Nat.sub_diag. simpl. now rewrite app_nil_r.
Qed.

(** X1.  The fragment raises exactly when the profile lacks key 0, the
    time vector is not empty and no key is strictly less than its
    first timestamp; the exception is then [KeyError], raised by the
    first lookup.  In every other case it returns an array of the
    length of the time vector.  It never raises [IndexError]. *)
Theorem X1_raises_only_at_first_lookup (p : profile) (ts : list Q) :
  ((0 ∉ keys p) /\ (exists t ts', ts = t :: ts' /\ no_key_below (keys p) t) ->
   build_reference p ts = Raise KeyError) /\
  (~ ((0 ∉ keys p) /\ exists t ts', ts = t :: ts' /\ no_key_below (keys p) t) ->
   exists out, build_reference p ts = Ok out /\ length out = length ts).
Proof.
  split.
  - intros (N0 & t & ts' & -> & Nb). rewrite build_reference_cons.
    rewrite scan_none by (intros k Hk; apply gt_le; now apply Nb).
    destruct (getitem p 0) as [x | e] eqn:G.
    + exfalso. apply N0. eapply getitem_Ok_key; eassumption.
    + now apply getitem_raise in G as [-> _].
  - intros Hn. destruct ts as [| t ts'].
    + exists []. split; reflexivity.
    + rewrite build_reference_cons.
      assert (Hk : scan (keys p) t 0 ∈ keys p).
      { destruct (scan_cases (keys p) t) as [Hno | (k0 & Hk0 & _ & E0)].
        - rewrite scan_none by exact Hno.
          destruct (decide (0 ∈ keys p)) as [H0 | N0]; [exact H0 |].
          exfalso. apply Hn. split; [exact N0 |]. exists t, ts'.
          split; [reflexivity |]. intros k Hk. apply gt_le. now apply Hno.
        - now rewrite E0. }
      rewrite (getitem_key _ _ Hk). eexists. split; [reflexivity |].
      simpl. now rewrite length_map, run_keys_length.
Qed.

Lemma X1_raises_only_at_first_lookup_witness :
  ((0 ∉ keys [ (3, (1 # 2)%Q) ]) /\
   (exists t ts', [ 0%Q; 5%Q ] = t :: ts' /\
                  no_key_below (keys [ (3, (1 # 2)%Q) ]) t)) /\
  build_reference [ (3, (1 # 2)%Q) ] [ 0%Q; 5%Q ] = Raise KeyError /\
  ~ ((0 ∉ keys [ (3, (1 # 2)%Q) ]) /\
     exists t ts', [ 5%Q; 0%Q ] = t :: ts' /\
                   no_key_below (keys [ (3, (1 # 2)%Q) ]) t) /\
  exists out, build_reference [ (3, (1 # 2)%Q) ] [ 5%Q; 0%Q ] = Ok out /\
              length out = length [ 5%Q; 0%Q ].
Proof.
  assert (A : (0 ∉ keys [ (3, (1 # 2)%Q) ]) /\
              (exists t ts', [ 0%Q; 5%Q ] = t :: ts' /\
                             no_key_below (keys [ (3, (1 # 2)%Q) ]) t)).
  { split.
    - intros H. apply elem_of_cons in H as [H | H];
        [discriminate | inversion H].
    - exists 0%Q, [ 5%Q ]. split; [reflexivity |].
      intros k Hk. elem_cases Hk. unfold Qle. simpl. lia. }
  assert (B : ~ ((0 ∉ keys [ (3, (1 # 2)%Q) ]) /\
                 exists t ts', [ 5%Q; 0%Q ] = t :: ts' /\
                               no_key_below (keys [ (3, (1 # 2)%Q) ]) t)).
  { intros (_ & t & ts' & E & Nb). injection E as <- <-.
    specialize (Nb 3 ltac:(left)). unfold Qle in Nb. simpl in Nb. lia. }
  split; [exact A |]. split; [| split; [exact B |]].
  - exact (proj1 (X1_raises_only_at_first_lookup _ _) A).
  - exact (proj2 (X1_raises_only_at_first_lookup _ _) B).
Defined.

(** ** Later timestamps do not reach back *)

Lemma run_keys_app (ks : list Z) (ck : Z) (ts1 ts2 : list Q) :
  run_keys ks ck (ts1 ++ ts2) =
  run_keys ks ck ts1 ++ run_keys ks (carried ks ck ts1) ts2.
Proof.
  revert ck. induction ts1 as [| t ts1 IH]; simpl; intros ck.
  - reflexivity.
  - now rewrite IH.
Qed.

(** X2.  For a profile containing key 0, the output for a time vector
    extended by further timestamps starts with the output for the
    time vector itself: an element does not depend on the timestamps
    after it. *)
Theorem X2_output_of_a_prefix (p : profile) (ts1 ts2 : list Q) :
  0 ∈ keys p ->
  exists out1 out2,
    build_reference p ts1 = Ok out1 /\
    build_reference p (ts1 ++ ts2) = Ok (out1 ++ out2) /\
    length out2 = length ts2.
Proof.
  intros H0. rewrite !build_reference_eq by exact H0.
  rewrite run_keys_app, map_app.
  eexists. eexists. split; [reflexivity |]. split; [reflexivity |].
  now rewrite length_map, run_keys_length.
Qed.

Lemma X2_output_of_a_prefix_witness :
  0 ∈ keys ref_profile /\
  exists out1 out2,
    build_reference ref_profile [ 5%Q ] = Ok out1 /\
    build_reference ref_profile ([ 5%Q ] ++ [ 0%Q ]) = Ok (out1 ++ out2) /\
    length out2 = length [ 0%Q ].
Proof.
  assert (H0 : 0 ∈ keys ref_profile) by left.
  split; [exact H0 |].
  exact (X2_output_of_a_prefix ref_profile [ 5%Q ] [ 0%Q ] H0).
Defined.

(** ** Timestamps that select no key, and repeated timestamps *)

Lemma scan_idem (ks : list Z) (t : Q) (ck : Z) :
  scan ks t (scan ks t ck) = scan ks t ck.
Proof.
  destruct (scan_cases ks t) as [Hno | (k0 & _ & _ & E0)].
  - now rewrite !scan_none by exact Hno.
  - now rewrite !E0.
Qed.

(** The keys of two consecutive iterations. *)
Lemma run_keys_consecutive (ks : list Z) (ts : list Q) (i : nat) (t t' : Q) :
  ts !! i = Some t -> ts !! S i = Some t' ->
  exists ck,
    run_keys ks 0 ts !! i = Some (scan ks t ck) /\
    run_keys ks 0 ts !! S i = Some (scan ks t' (scan ks t ck)).
Proof.
  intros Hi HS. exists (carried ks 0 (take i ts)). split.
  - now apply run_keys_lookup.
  - rewrite (run_keys_lookup ks 0 ts (S i) t' HS).
    now rewrite (take_S_r ts i t Hi), carried_snoc.
Qed.

(** X3.  For a profile containing key 0, a timestamp after the first
    that has no key strictly below it gets the output element of the
    timestamp before it. *)
Theorem X3_no_key_below_repeats_previous (p : profile) (ts : list Q)
    (i : nat) (t t' : Q) :
  0 ∈ keys p ->
  ts !! i = Some t -> ts !! S i = Some t' -> no_key_below (keys p) t' ->
  exists out v,
    build_reference p ts = Ok out /\
    out !! i = Some v /\ out !! S i = Some v.
Proof.
  intros H0 Hi HS Nb.
  destruct (run_keys_consecutive (keys p) ts i t t' Hi HS) as (ck & E1 & E2).
  rewrite (scan_none (keys p) t') in E2
    by (intros k Hk; apply gt_le; now apply Nb).
  eexists. eexists. split; [now apply build_reference_eq |].
  rewrite !list_lookup_fmap, E1, E2. split; reflexivity.
Qed.

Lemma X3_no_key_below_repeats_previous_witness :
  0 ∈ keys ref_profile /\
  times_back !! 0%nat = Some 5%Q /\ times_back !! 1%nat = Some 0%Q /\
  no_key_below (keys ref_profile) 0%Q /\
  exists out v,
    build_reference ref_profile times_back = Ok out /\
    out !! 0%nat = Some v /\ out !! 1%nat = Some v.
Proof.
  assert (H0 : 0 ∈ keys ref_profile) by left.
  assert (Nb : no_key_below (keys ref_profile) 0%Q).
  { intros k Hk. elem_cases Hk; unfold Qle; simpl; lia. }
  split; [exact H0 |]. split; [reflexivity |]. split; [reflexivity |].
  split; [exact Nb |].
  exact (X3_no_key_below_repeats_previous ref_profile times_back 0 5%Q 0%Q
           H0 eq_refl eq_refl Nb).
Defined.

(** X4.  For a profile containing key 0, in any storage order, a
    timestamp equal to the one before it gets the same output
    element. *)
Theorem X4_equal_timestamp_repeats_previous (p : profile) (ts : list Q)
    (i : nat) (t t' : Q) :
  0 ∈ keys p ->
  ts !! i = Some t -> ts !! S i = Some t' -> (t' == t)%Q ->
  exists out v,
    build_reference p ts = Ok out /\
    out !! i = Some v /\ out !! S i = Some v.
Proof.
  intros H0 Hi HS E.
  destruct (run_keys_consecutive (keys p) ts i t t' Hi HS) as (ck & E1 & E2).
  rewrite (scan_Qeq (keys p) t' t _ E), scan_idem in E2.
  eexists. eexists. split; [now apply build_reference_eq |].
  rewrite !list_lookup_fmap, E1, E2. split; reflexivity.
Qed.

Lemma X4_equal_timestamp_repeats_previous_witness :
  0 ∈ keys profile3_shuffled /\
  [ 5%Q; (10 # 2)%Q ] !! 0%nat = Some 5%Q /\
  [ 5%Q; (10 # 2)%Q ] !! 1%nat = Some (10 # 2)%Q /\
  (10 # 2 == 5)%Q /\
  exists out v,
    build_reference profile3_shuffled [ 5%Q; (10 # 2)%Q ] = Ok out /\
    out !! 0%nat = Some v /\ out !! 1%nat = Some v.
Proof.
  assert (H0 : 0 ∈ keys profile3_shuffled) by (right; left).
  assert (E : (10 # 2 == 5)%Q) by reflexivity.
  split; [exact H0 |]. split; [reflexivity |]. split; [reflexivity |].
  split; [exact E |].
  exact (X4_equal_timestamp_repeats_previous profile3_shuffled
           [ 5%Q; (10 # 2)%Q ] 0 5%Q (10 # 2)%Q H0 eq_refl eq_refl E).
Defined.

(** ** The values the loop can emit *)

(** X5.  For a profile containing key 0, every element of the output
    is a value stored in the profile: no element keeps the zero that
    [np.zeros_like] put there unless the loop wrote a zero of the
    profile over it. *)
Theorem X5_output_holds_profile_values (p : profile) (ts out : list Q)
    (i : nat) (v : Q) :
  0 ∈ keys p -> build_reference p ts = Ok out -> out !! i = Some v ->
  exists k, (k, v) ∈ p.
Proof.
  intros H0 B Hi. rewrite (build_reference_eq p ts H0) in B.
  injection B as <-. rewrite list_lookup_fmap in Hi.
  destruct (run_keys (keys p) 0 ts !! i) as [k |] eqn:E; [| discriminate].
  injection Hi as <-. exists k. apply getitem_elem, getitem_key.
  pose proof (run_keys_in (keys p) 0 ts H0) as A.
  rewrite Forall_lookup in A. exact (A i k E).
Qed.

Lemma X5_output_holds_profile_values_witness :
  0 ∈ keys ref_profile /\
  build_reference ref_profile times_back = Ok [ (1 # 2)%Q; (1 # 2)%Q ] /\
  [ (1 # 2)%Q; (1 # 2)%Q ] !! 1%nat = Some (1 # 2)%Q /\
  exists k, (k, (1 # 2)%Q) ∈ ref_profile.
Proof.
  assert (H0 : 0 ∈ keys ref_profile) by left.
  split; [exact H0 |]. split; [reflexivity |]. split; [reflexivity |].
  exact (X5_output_holds_profile_values ref_profile times_back
           [ (1 # 2)%Q; (1 # 2)%Q ] 1 (1 # 2)%Q H0 eq_refl eq_refl).
Defined.

(** ** Timestamps above every key *)

Lemma scan_all_below (ks : list Z) (t : Q) (ck kl : Z) :
  last ks = Some kl -> gt t kl = true -> scan ks t ck = kl.
Proof.
  intros L G. apply last_Some in L as [ks' ->].
  rewrite scan_app. simpl. now rewrite G.
Qed.

(** X6.  For a profile containing key 0, in any storage order, a
    timestamp strictly greater than the key stored last gets the value
    of that key, whatever the timestamps before it. *)
Theorem X6_above_last_key_emits_last_key (p : profile) (ts : list Q)
    (i : nat) (t : Q) (kl : Z) :
  0 ∈ keys p ->
  ts !! i = Some t -> last (keys p) = Some kl -> (inject_Z kl < t)%Q ->
  emits p ts i kl.
Proof.
  intros H0 Hi L G. pose proof (emits_scan p ts i t H0 Hi) as E.
  rewrite (scan_all_below _ _ _ kl L) in E; [exact E | now apply gt_lt].
Qed.

Lemma X6_above_last_key_emits_last_key_witness :
  0 ∈ keys profile3_shuffled /\
  [ 1%Q; 7%Q ] !! 1%nat = Some 7%Q /\
  last (keys profile3_shuffled) = Some 6 /\ (inject_Z 6 < 7)%Q /\
  emits profile3_shuffled [ 1%Q; 7%Q ] 1 6.
Proof.
  assert (H0 : 0 ∈ keys profile3_shuffled) by (right; left).
  assert (G : (inject_Z 6 < 7)%Q) by reflexivity.
  split; [exact H0 |]. split; [reflexivity |]. split; [reflexivity |].
  split; [exact G |].
  exact (X6_above_last_key_emits_last_key profile3_shuffled [ 1%Q; 7%Q ]
           1 7%Q 6 H0 eq_refl eq_refl G).
Defined.

(** ** An ascending profile under a time vector that never decreases *)

Lemma nondecreasing_app_l (a b : list Q) :
  nondecreasing (a ++ b) = true -> nondecreasing a = true.
Proof.
  induction a as [| t a IH]; [reflexivity |].
  rewrite <- app_comm_cons, !nondecreasing_cons. intros [H1 H2].
  split; [| auto]. intros t' Ht'. apply H1. apply elem_of_app. now left.
Qed.

(** One iteration keeps the invariant of [run_keys_spec] and does not
    lower the key. *)
Lemma scan_step_inv (ks : list Z) (t : Q) (ts : list Q) (ck : Z) :
  ascending ks = true -> smallest_key ks 0 ->
  nondecreasing (t :: ts) = true ->
  ck = 0 \/ (ck ∈ ks /\ forall t', t' ∈ t :: ts -> gt t' ck = true) ->
  ck <= scan ks t ck /\
  (scan ks t ck = 0 \/
   (scan ks t ck ∈ ks /\ forall t', t' ∈ ts -> gt t' (scan ks t ck) = true)).
Proof.
  intros A [H0 Hmin] M Inv. apply nondecreasing_cons in M as [M1 _].
  rewrite (scan_ascending _ _ _ A).
  destruct (largest_below ks t) as [k |] eqn:E; simpl.
  - apply largest_below_Some in E as (Hk & L & Hmax). split.
    + destruct Inv as [-> | [Hck G]]; [now apply Hmin |].
      apply Hmax; [exact Hck |]. apply gt_lt, G. left.
    + right. split; [exact Hk |]. intros t' Ht'.
      apply (gt_mono t t'); [now apply M1 | now apply gt_lt].
  - split; [lia |]. destruct Inv as [-> | [Hck G]]; [now left |].
    right. split; [exact Hck |]. intros t' Ht'. apply G. now right.
Qed.

Lemma carried_ge (ks : list Z) (ts : list Q) (ck : Z) :
  ascending ks = true -> smallest_key ks 0 -> nondecreasing ts = true ->
  ck = 0 \/ (ck ∈ ks /\ forall t, t ∈ ts -> gt t ck = true) ->
  ck <= carried ks ck ts.
Proof.
  intros A S0. unfold carried. revert ck.
  induction ts as [| t ts IH]; simpl; intros ck M Inv; [lia |].
  destruct (scan_step_inv ks t ts ck A S0 M Inv) as [L Inv'].
  apply nondecreasing_cons in M as [_ M2].
  specialize (IH _ M2 Inv'). lia.
Qed.

Lemma carried_app_ge (ks : list Z) (a b : list Q) (ck : Z) :
  ascending ks = true -> smallest_key ks 0 ->
  nondecreasing (a ++ b) = true ->
  ck = 0 \/ (ck ∈ ks /\ forall t, t ∈ a ++ b -> gt t ck = true) ->
  carried ks ck a <= carried ks ck (a ++ b).
Proof.
  intros A S0. revert ck. induction a as [| t a IH]; intros ck M Inv.
  - simpl. now apply carried_ge.
  - rewrite <- app_comm_cons in *.
    destruct (scan_step_inv ks t (a ++ b) ck A S0 M Inv) as [_ Inv'].
    apply nondecreasing_cons in M as [_ M2].
    exact (IH _ M2 Inv').
Qed.

(** X7.  For a profile stored in ascending key order with smallest key
    0 and a time vector that never decreases, [crnt_key] never
    decreases while the loop runs: its value after any number of
    iterations is at most its value after more of them. *)
Theorem X7_crnt_key_never_decreases (p : profile) (a b c : list Q) :
  ascending (keys p) = true -> smallest_key (keys p) 0 ->
  nondecreasing (a ++ b ++ c) = true ->
  exists s1 s2,
    (init_locals ;; Py.for_each a loop_body)%py
      (initial_store p (a ++ b ++ c)) = Ok (tt, s1) /\
    (init_locals ;; Py.for_each (a ++ b) loop_body)%py
      (initial_store p (a ++ b ++ c)) = Ok (tt, s2) /\
    v_crnt_key s1 <= v_crnt_key s2.
Proof.
  intros A S0 M. pose proof S0 as [H0 _]. unfold initial_store.
  eexists. eexists. split; [now apply prefix_run |]. split.
  - rewrite (app_assoc a b c). now apply prefix_run.
  - simpl. apply carried_app_ge; auto.
    rewrite app_assoc in M. now apply nondecreasing_app_l in M.
Qed.

Lemma X7_crnt_key_never_decreases_witness :
  ascending (keys ref_profile) = true /\ smallest_key (keys ref_profile) 0 /\
  nondecreasing ([ 1%Q ] ++ [ 4%Q; 4%Q ] ++ [ 30%Q ]) = true /\
  exists s1 s2,
    (init_locals ;; Py.for_each [ 1%Q ] loop_body)%py
      (initial_store ref_profile ([ 1%Q ] ++ [ 4%Q; 4%Q ] ++ [ 30%Q ]))
      = Ok (tt, s1) /\
    (init_locals ;; Py.for_each ([ 1%Q ] ++ [ 4%Q; 4%Q ]) loop_body)%py
      (initial_store ref_profile ([ 1%Q ] ++ [ 4%Q; 4%Q ] ++ [ 30%Q ]))
      = Ok (tt, s2) /\
    v_crnt_key s1 <= v_crnt_key s2.
Proof.
  assert (S0 : smallest_key (keys ref_profile) 0).
  { split; [left |]. intros k Hk. elem_cases Hk; lia. }
  split; [reflexivity |]. split; [exact S0 |]. split; [reflexivity |].
  exact (X7_crnt_key_never_decreases ref_profile [ 1%Q ] [ 4%Q; 4%Q ]
           [ 30%Q ] eq_refl S0 eq_refl).
Defined.

Lemma largest_below_Qeq (ks : list Z) (t1 t2 : Q) :
  (t1 == t2)%Q -> largest_below ks t1 = largest_below ks t2.
Proof.
  intros E. unfold largest_below. f_equal.
  induction ks as [| k ks IH]; simpl; [reflexivity |].
  now rewrite (gt_Qeq t1 t2 k E), IH.
Qed.

(** X8.  For a profile stored in ascending key order with smallest key
    0, on time vectors that never decrease the output element is a
    function of its timestamp alone: equal timestamps, at any
    positions of any two such time vectors, get equal elements. *)
Theorem X8_sorted_inputs_memoryless (p : profile) (ts1 ts2 : list Q)
    (i j : nat) (t1 t2 : Q) :
  ascending (keys p) = true -> smallest_key (keys p) 0 ->
  nondecreasing ts1 = true -> nondecreasing ts2 = true ->
  ts1 !! i = Some t1 -> ts2 !! j = Some t2 -> (t1 == t2)%Q ->
  exists out1 out2 v,
    build_reference p ts1 = Ok out1 /\ build_reference p ts2 = Ok out2 /\
    out1 !! i = Some v /\ out2 !! j = Some v.
Proof.
  intros A S0 M1 M2 H1 H2 E. pose proof S0 as [H0 _].
  assert (K : forall ts n t, nondecreasing ts = true -> ts !! n = Some t ->
            Some <$> run_keys (keys p) 0 ts !! n
            = Some (spec_current_key (keys p) t)).
  { intros ts n t M Hn.
    rewrite <- list_lookup_fmap, <- (run_keys_spec (keys p) ts 0 A S0 M)
      by now left.
    now rewrite list_lookup_fmap, Hn. }
  pose proof (K ts1 i t1 M1 H1) as K1. pose proof (K ts2 j t2 M2 H2) as K2.
  unfold spec_current_key in K1, K2.
  rewrite (largest_below_Qeq _ t1 t2 E) in K1.
  destruct (run_keys (keys p) 0 ts1 !! i) as [k1 |] eqn:E1; [| discriminate].
  destruct (run_keys (keys p) 0 ts2 !! j) as [k2 |] eqn:E2; [| discriminate].
  simpl in K1, K2. assert (k1 = k2) as -> by congruence.
  exists (map (value_at p) (run_keys (keys p) 0 ts1)),
         (map (value_at p) (run_keys (keys p) 0 ts2)), (value_at p k2).
  rewrite !build_reference_eq by exact H0.
  rewrite !list_lookup_fmap, E1, E2. repeat split; reflexivity.
Qed.

Lemma X8_sorted_inputs_memoryless_witness :
  ascending (keys ref_profile) = true /\ smallest_key (keys ref_profile) 0 /\
  nondecreasing times8 = true /\ nondecreasing [ 0%Q; (62 # 20)%Q ] = true /\
  times8 !! 4%nat = Some (31 # 10)%Q /\
  [ 0%Q; (62 # 20)%Q ] !! 1%nat = Some (62 # 20)%Q /\
  (31 # 10 == 62 # 20)%Q /\
  exists out1 out2 v,
    build_reference ref_profile times8 = Ok out1 /\
    build_reference ref_profile [ 0%Q; (62 # 20)%Q ] = Ok out2 /\
    out1 !! 4%nat = Some v /\ out2 !! 1%nat = Some v.
Proof.
  assert (S0 : smallest_key (keys ref_profile) 0).
  { split; [left |]. intros k Hk. elem_cases Hk; lia. }
  assert (E : (31 # 10 == 62 # 20)%Q) by reflexivity.
  split; [reflexivity |]. split; [exact S0 |]. split; [reflexivity |].
  split; [reflexivity |]. split; [reflexivity |]. split; [reflexivity |].
  split; [exact E |].
  exact (X8_sorted_inputs_memoryless ref_profile times8 [ 0%Q; (62 # 20)%Q ]
           4 1 (31 # 10)%Q (62 # 20)%Q eq_refl S0 eq_refl eq_refl
           eq_refl eq_refl E).
Defined.

(** ** The table of the scripts *)

(** The key the specification selects in [ref_profile] holds the value
    of the staircase. *)
Lemma ref_profile_staircase (t : Q) :
  exists k, spec_current_key (keys ref_profile) t = Some k /\
            getitem ref_profile k = Ok (staircase t).
Proof.
  assert (Sel : forall k v, k ∈ keys ref_profile -> gt t k = true ->
            (forall k', k' ∈ keys ref_profile -> gt t k' = true -> k' <= k) ->
            getitem ref_profile k = Ok v ->
            exists k0, spec_current_key (keys ref_profile) t = Some k0 /\
                       getitem ref_profile k0 = Ok v).
  { intros k v Hk G Hmax Gv. exists k. split; [| exact Gv].
    unfold spec_current_key.
    assert (largest_below (keys ref_profile) t = Some k) as ->; [| reflexivity].
    apply largest_below_Some. repeat split; [exact Hk | now apply gt_lt |].
    intros k' Hk' L. apply Hmax; [exact Hk' | now apply gt_lt]. }
  unfold staircase.
  destruct (gt t 25) eqn:G25;
    [| destruct (gt t 20) eqn:G20;
       [| destruct (gt t 15) eqn:G15;
          [| destruct (gt t 10) eqn:G10;
             [| destruct (gt t 6) eqn:G6;
                [| destruct (gt t 3) eqn:G3;
                   [| destruct (gt t 0) eqn:G0]]]]]].
  1: apply (Sel 25); [do 6 right; left | exact G25 | | reflexivity].
  2: apply (Sel 20); [do 5 right; left | exact G20 | | reflexivity].
  3: apply (Sel 15); [do 4 right; left | exact G15 | | reflexivity].
  4: apply (Sel 10); [do 3 right; left | exact G10 | | reflexivity].
  5: apply (Sel 6); [do 2 right; left | exact G6 | | reflexivity].
  6: apply (Sel 3); [right; left | exact G3 | | reflexivity].
  7: apply (Sel 0); [left | exact G0 | | reflexivity].
  1-7: intros k' Hk' L; elem_cases Hk'; cbn [fst] in L; try lia; congruence.
  exists 0. split; [| reflexivity]. unfold spec_current_key.
  assert (largest_below (keys ref_profile) t = None) as ->; [| reflexivity].
  apply largest_below_None. intros k' Hk'. apply gt_le.
  elem_cases Hk'; assumption.
Qed.

(** X12.  With the table [ref_profile] of the scripts, on every time
    vector that never decreases the loop returns the staircase sampled
    at the timestamps: 1.0 for [t <= 3], 0.5 for [3 < t <= 6], 1.5 for
    [6 < t <= 10], -0.5 for [10 < t <= 15], 2.0 for [15 < t <= 20],
    -3 for [20 < t <= 25] and 0 for [t > 25]. *)
Theorem X12_ref_profile_is_the_staircase (ts : list Q) :
  nondecreasing ts = true ->
  build_reference ref_profile ts = Ok (map staircase ts).
Proof.
  intros M.
  assert (S0 : smallest_key (keys ref_profile) 0).
  { split; [left |]. intros k Hk. elem_cases Hk; lia. }
  rewrite (build_reference_meets_spec ref_profile ts eq_refl S0 M).
  unfold spec_build_reference. clear M.
  induction ts as [| t ts IH]; [reflexivity |].
  rewrite !map_cons.
  destruct (ref_profile_staircase t) as (k & -> & G).
  cbn [collect]. now rewrite G, IH.
Qed.

Lemma X12_ref_profile_is_the_staircase_witness :
  nondecreasing times8 = true /\
  build_reference ref_profile times8 = Ok (map staircase times8).
Proof.
  split; [reflexivity |].
  exact (X12_ref_profile_is_the_staircase times8 eq_refl).
Defined.

(** * The Generate button *)

Section GuiProofs.

Variable F : Type.
Variable float : string -> option F.
Variable simulate : simulation -> F -> F -> F -> option gui_exn.




End GuiProofs.



